(** * GAME matcher: the chunked tournament engine, its dispatcher, the REST
      validation layer and the framed socket session.

    Sources embedded here:
    - [llm_matcher_v2/ollama_matcher.py] and [rest_llm_matcher/ollama_matcher.py]
      (the two copies of [process_request_with_chunking] differ only in the
      prompt templates, which the language model alone reads);
    - [rest_llm_matcher/matcher_rest_api.py] ([MatcherRequest], [perform_match]);
    - [llm_matcher_v2/matcher_server.py] ([handle_client], [run_matcher]).

    Strings are sequences of bytes (the UTF-8 encoding of a Python [str]);
    byte-wise lexicographic order on UTF-8 is code-point order, which is the
    order Python's [sorted] uses on [str]. *)

From Stdlib Require Import ZArith String Ascii List Lia Bool.
From Stdlib.Strings Require Import Byte.
From stdpp Require Import base option list sorting gmap strings.

Local Open Scope string_scope.
Local Open Scope list_scope.
Local Open Scope nat_scope.
Local Set Warnings "-register-all".

(** ** JSON values, as [json.loads] builds them *)

(** [JObj] carries the items of the resulting [dict] (keys pairwise distinct).
    [JNum] stands for the integers; a non-integral number is a non-string like
    any other for all that follows. *)
Inductive json : Type :=
| JNull
| JBool (b : bool)
| JNum (z : Z)
| JStr (s : string)
| JArr (l : list json)
| JObj (items : list (string * json)).

(** Python truthiness ([if match ...]). *)
Definition truthy (j : json) : bool :=
  match j with
  | JNull => false
  | JBool b => b
  | JNum z => negb (z =? 0)%Z
  | JStr s => negb (bool_decide (s = ""))
  | JArr l => negb (bool_decide (length l = 0))
  | JObj items => negb (bool_decide (length items = 0))
  end.

(** [j == s] for a [str] [s]: only an equal [str] compares equal. *)
Definition py_eq_str (j : json) (s : string) : bool :=
  match j with
  | JStr t => bool_decide (t = s)
  | _ => false
  end.

(** [j in chunk] for a list of [str]: membership by [==], so only a [str]
    can be found; the element found is returned. *)
Definition py_in (j : json) (chunk : list string) : option string :=
  match j with
  | JStr t => if bool_decide (t ∈ chunk) then Some t else None
  | _ => None
  end.

(** [d.get(key, default)] on the items of a dict. *)
Fixpoint dict_get (items : list (string * json)) (key : string) (default : json) : json :=
  match items with
  | [] => default
  | (k, v) :: rest => if bool_decide (k = key) then v else dict_get rest key default
  end.

(** ** The language model behind [current_chain.invoke] *)

(** What one call yields once [json.loads] has run on the returned text. *)
Inductive llm_reply : Type :=
| InvokeError            (* [current_chain.invoke] raised *)
| NotJson                (* [json.loads] raised [JSONDecodeError] *)
| Parsed (j : json).

(** A value of the request document.  The REST front end admits null, a
    string or a list of strings ([Optional[str]] and [Optional[List[str]]]
    in [MatcherRequest]); the socket session hands over whatever
    [json.loads] built, so booleans, numbers and objects are values too.
    [VNum] stands for the integers, [VDict] carries the items of the
    [dict] (keys pairwise distinct, in insertion order).  The one shape
    left out is a list that holds something other than strings. *)
Inductive value : Type :=
| VNone
| VBool (b : bool)
| VNum (z : Z)
| VStr (s : string)
| VList (l : list string)
| VDict (items : list (string * json)).

(** [not v]. *)
Definition falsy (v : value) : bool :=
  match v with
  | VNone => true
  | VBool b => negb b
  | VNum z => (z =? 0)%Z
  | VStr s => bool_decide (s = "")
  | VList l => bool_decide (length l = 0)
  | VDict items => bool_decide (length items = 0)
  end.

(** Whether [for choice in v] can run: the comprehension of line 215
    raises [TypeError] on null, a boolean or a number. *)
Definition iterable (v : value) : bool :=
  match v with
  | VNone | VBool _ | VNum _ => false
  | VStr _ | VList _ | VDict _ => true
  end.

(** Lines 212-215, on a value that is a string or can be iterated: a bare
    string becomes a one-element list, a list stays, and an object gives
    the list of its keys ([str(choice)] of a key is the key). *)
Definition as_choices (v : value) : list string :=
  match v with
  | VStr s => [s]
  | VList l => l
  | VDict items => map fst items
  | VNone | VBool _ | VNum _ => []
  end.

Inductive template : Type :=
| CELL_TYPE_TEMPLATE
| SPECIES_TEMPLATE
| BINDING_MOLECULE_TEMPLATE.

(** The dict handed to [current_chain.invoke] ([choices_list] before
    [json.dumps]). *)
Record prompt : Type := Prompt {
  input_term : value;
  choices_list : list string;
  actual_key : string
}.

(** The exceptions that travel through the code embedded here. *)
Inductive exn : Type :=
| ValueError              (* [range()] with a zero step *)
| TypeError               (* iterating a value that is not iterable, line 215 *)
| SystemExit              (* [sys.exit(1)] in [get_chain_from_prefix] *)
| ConnectionError         (* raised by [handle_client] on a short payload *)
| ConnectionResetError
| BrokenPipeError
| StructError.            (* [struct.error] *)

(** [SystemExit] derives from [BaseException] only. *)
Definition is_Exception (e : exn) : bool :=
  match e with
  | SystemExit => false
  | _ => true
  end.

Inductive outcome (A : Type) : Type :=
| Done (a : A)
| Raised (e : exn)
| OutOfFuel.        (* a loop is still running *)
Arguments Done {A} a.
Arguments Raised {A} e.
Arguments OutOfFuel {A}.

Definition MATCHER_VERSION : string := "2.0".
Definition default_chunk_size : Z := 20.
Definition possible_prefixes : list string := ["cell_type"; "binding_molecule"; "species"].

Definition get_chain_from_prefix (prefix : string) : option template :=
  if bool_decide (prefix = "cell_type") then Some CELL_TYPE_TEMPLATE
  else if bool_decide (prefix = "species") then Some SPECIES_TEMPLATE
  else if bool_decide (prefix = "binding_molecule") then Some BINDING_MOLECULE_TEMPLATE
  else None.

(** ** Chunking and deduplication *)

(** [ceil(n / k)] on the naturals, for [k > 0]. *)
Definition ceil_div (n k : nat) : nat := (n + k - 1) / k.

(** [range(0, stop, step)] for [stop = len(...)]: [None] is the [ValueError]
    of a zero step; a negative step gives the empty range. *)
Definition py_range0 (stop : nat) (step : Z) : option (list nat) :=
  if bool_decide (step = 0)%Z then None
  else if bool_decide (0 < step)%Z then
    let k := Z.to_nat step in
    Some (map (λ j, j * k) (seq 0 (ceil_div stop k)))
  else Some [].

(** [l[i:j]] for [0 <= i <= j]. *)
Definition slice (l : list string) (i j : nat) : list string := take (j - i) (drop i l).

(** [[l[i:i + K] for i in range(0, len(l), K)]]. *)
Definition make_chunks (l : list string) (K : Z) : option (list (list string)) :=
  match py_range0 (length l) K with
  | Some starts => Some (map (λ i, slice l i (i + Z.to_nat K)) starts)
  | None => None
  end.

(** [sorted(list(set(l)))]. *)
Definition sorted_set (l : list string) : list string :=
  merge_sort String.le (remove_dups l).

(** ** One tournament, over an arbitrary oracle *)

(** Every operation returns the state it leaves behind, also when it raises. *)

Section Tournament.
Context {St : Type}.
(** The oracle: any function of its own state, so the same text covers
    deterministic stubs and answers that change from call to call. *)
Variable invoke : St → template → prompt → llm_reply * St.

(** [calls] is the log of the prompts sent so far, oldest first. *)
Record world : Type := World { llm : St; calls : list prompt }.

Definition ask (chain : template) (p : prompt) (w : world) : llm_reply * world :=
  let '(r, s) := invoke (llm w) chain p in
  (r, World s (calls w ++ [p])%list).

(** [response_json.get(actual_key, "NULL")]; [None] when an exception was
    raised on the way ([.get] on a non-dict is an [AttributeError]). *)
Definition reply_value (key : string) (r : llm_reply) : option json :=
  match r with
  | Parsed (JObj items) => Some (dict_get items key (JStr "NULL"))
  | _ => None
  end.

(** Lines 253-267 and 297-311: the champion one chunk contributes. *)
Definition chunk_winner (key : string) (chunk : list string) (r : llm_reply) : option string :=
  match reply_value key r with
  | Some m =>
      if truthy m && negb (py_eq_str m "NULL") then py_in m chunk else None
  | None => None
  end.

(** The [for i, chunk in enumerate(chunks)] loops. *)
Fixpoint run_chunks (chain : template) (q : value) (key : string)
    (chunks : list (list string)) (chunk_champions : list string) (w : world)
    : list string * world :=
  match chunks with
  | [] => (chunk_champions, w)
  | chunk :: rest =>
      let '(r, w1) := ask chain (Prompt q chunk key) w in
      let champions' :=
        match chunk_winner key chunk r with
        | Some m => (chunk_champions ++ [m])%list
        | None => chunk_champions
        end in
      run_chunks chain q key rest champions' w1
  end.

(** One round: chunk, ask per chunk, deduplicate (lines 227-271 for round
    0, lines 276-313 for a championship round: the same statements). *)
Definition play_round (chain : template) (q : value) (key : string) (K : Z)
    (candidates : list string) (w : world) : outcome (list string) * world :=
  match make_chunks candidates K with
  | None => (Raised ValueError, w)
  | Some chunks =>
      let '(champions, w') := run_chunks chain q key chunks [] w in
      (Done (sorted_set champions), w')
  end.

(** What the [while] loop leaves behind.  [rounds] is a record of the run:
    the successive values of [unique_champions] that the loop chunked
    again; [finalists] is its value when the loop is left. *)
Record finish : Type := Finish {
  rounds : list (list string);
  finalists : list string
}.

(** Lines 273-313: [while len(unique_champions) > list_chunk_size]. *)
Fixpoint championship (fuel : nat) (chain : template) (q : value) (key : string) (K : Z)
    (unique_champions : list string) (w : world) : outcome finish * world :=
  if bool_decide (K < Z.of_nat (length unique_champions))%Z then
    match fuel with
    | O => (OutOfFuel, w)
    | S fuel' =>
        match play_round chain q key K unique_champions w with
        | (Done next, w') =>
            match championship fuel' chain q key K next w' with
            | (Done f, w'') =>
                (Done (Finish (unique_champions :: rounds f) (finalists f)), w'')
            | other => other
            end
        | (Raised e, w') => (Raised e, w')
        | (OutOfFuel, w') => (OutOfFuel, w')
        end
    end
  else (Done (Finish [] unique_champions), w).

(** Lines 339-346: the answer of the final round. *)
Definition final_winner (key : string) (unique_champions : list string) (r : llm_reply) : string :=
  match reply_value key r with
  | Some final_answer =>
      match py_in final_answer unique_champions with
      | Some s => s
      | None => "NULL"
      end
  | None => "NULL"
  end.

(** Lines 316-346. *)
Definition final_decision (chain : template) (q : value) (key : string)
    (unique_champions : list string) (w : world) : string * world :=
  let final_answer := "NULL" in
  match unique_champions with
  | [] => (final_answer, w)
  | [c] => (c, w)
  | _ =>
      let '(r, w') := ask chain (Prompt q unique_champions key) w in
      (final_winner key unique_champions r, w')
  end.

(** Lines 219-313 for one category: round 0, then the championship loop. *)
Definition run_rounds (fuel : nat) (K : Z) (prefix : string) (q : value)
    (choices : list string) (w : world) : outcome (template * finish) * world :=
  match get_chain_from_prefix prefix with
  | None => (Raised SystemExit, w)
  | Some chain =>
      match play_round chain q (prefix +:+ "_actual") K choices w with
      | (Done unique_champions, w1) =>
          match championship fuel chain q (prefix +:+ "_actual") K unique_champions w1 with
          | (Done f, w2) => (Done (chain, f), w2)
          | (Raised e, w2) => (Raised e, w2)
          | (OutOfFuel, w2) => (OutOfFuel, w2)
          end
      | (Raised e, w1) => (Raised e, w1)
      | (OutOfFuel, w1) => (OutOfFuel, w1)
      end
  end.

(** Lines 219-348 for one category: the answer, with the record of the
    rounds that led to it. *)
Definition match_category (fuel : nat) (K : Z) (prefix : string) (q : value)
    (choices : list string) (w : world) : outcome (string * finish) * world :=
  match run_rounds fuel K prefix q choices w with
  | (Done (chain, f), w2) =>
      let '(final_answer, w3) :=
        final_decision chain q (prefix +:+ "_actual") (finalists f) w2 in
      (Done (final_answer, f), w3)
  | (Raised e, w2) => (Raised e, w2)
  | (OutOfFuel, w2) => (OutOfFuel, w2)
  end.

(** Lines 193-349: the loop over [possible_prefixes]. *)
Fixpoint process_prefixes (fuel : nat) (K : Z) (request_data : gmap string value)
    (prefixes : list string) (response_data : gmap string (option string)) (w : world)
    : outcome (gmap string (option string)) * world :=
  match prefixes with
  | [] => (Done response_data, w)
  | prefix :: rest =>
      match request_data !! (prefix +:+ "_requested"), request_data !! (prefix +:+ "_list") with
      | Some q, Some choices =>
          if falsy q || falsy choices then
            process_prefixes fuel K request_data rest
              (<[prefix +:+ "_actual" := None]> response_data) w
          else if negb (iterable choices) then (Raised TypeError, w)
          else
            match match_category fuel K prefix q (as_choices choices) w with
            | (Done (final_answer, _), w') =>
                process_prefixes fuel K request_data rest
                  (<[prefix +:+ "_actual" := Some final_answer]> response_data) w'
            | (Raised e, w') => (Raised e, w')
            | (OutOfFuel, w') => (OutOfFuel, w')
            end
      | _, _ => process_prefixes fuel K request_data rest response_data w
      end
  end.

Definition process_request_with_chunking (fuel : nat) (request_data : gmap string value)
    (list_chunk_size : Z) (w : world) : outcome (gmap string (option string)) * world :=
  match process_prefixes fuel list_chunk_size request_data possible_prefixes ∅ w with
  | (Done response_data, w') =>
      (Done (<["matcher_version" := Some MATCHER_VERSION]> response_data), w')
  | (Raised e, w') => (Raised e, w')
  | (OutOfFuel, w') => (OutOfFuel, w')
  end.

End Tournament.

(** ** The REST front end ([matcher_rest_api.py]) *)

(** A field of the request body: [None] when the body does not mention it
    (unset, reads as [None]); [Some None] for an explicit [null]. *)
Definition field (A : Type) : Type := option (option A).

(** [self.<name>]. *)
Definition attr {A : Type} (f : field A) : option A :=
  match f with
  | Some (Some a) => Some a
  | _ => None
  end.

Record MatcherRequest : Type := {
  cell_type_requested : field string;
  cell_type_list : field (list string);
  species_requested : field string;
  species_list : field (list string);
  binding_molecule_requested : field string;
  binding_molecule_list : field (list string)
}.

(** [x is not None]. *)
Definition is_not_None {A : Type} (o : option A) : bool :=
  match o with
  | Some _ => true
  | None => false
  end.

(** [not l] for an [Optional[List[str]]]. *)
Definition not_list (o : option (list string)) : bool :=
  match o with
  | Some l => bool_decide (length l = 0)
  | None => true
  end.

(** Truthiness of an [Optional[str]]. *)
Definition truthy_str (o : option string) : bool :=
  match o with
  | Some s => negb (bool_decide (s = ""))
  | None => false
  end.

(** Both validators return [Some message] for the [ValueError] they raise. *)
Definition check_paired_fields (r : MatcherRequest) : option string :=
  if is_not_None (attr (cell_type_requested r)) && not_list (attr (cell_type_list r)) then
    Some "If 'cell_type_requested' is provided, 'cell_type_list' must also be provided and non-empty."
  else if is_not_None (attr (species_requested r)) && not_list (attr (species_list r)) then
    Some "If 'species_requested' is provided, 'species_list' must also be provided and non-empty."
  else if is_not_None (attr (binding_molecule_requested r))
          && not_list (attr (binding_molecule_list r)) then
    Some "If 'binding_molecule_requested' is provided, 'binding_molecule_list' must also be provided and non-empty."
  else None.

Definition check_at_least_one_pair (r : MatcherRequest) : option string :=
  if negb (truthy_str (attr (cell_type_requested r))
           || truthy_str (attr (species_requested r))
           || truthy_str (attr (binding_molecule_requested r))) then
    Some "Request must contain at least one category to match (e.g. 'cell_type_requested')."
  else None.

(** The model validators, in the order the class declares them. *)
Definition validate (r : MatcherRequest) : option string :=
  match check_paired_fields r with
  | Some detail => Some detail
  | None => check_at_least_one_pair r
  end.

Definition dump_field {A : Type} (inj : A → value) (key : string) (f : field A)
    (d : gmap string value) : gmap string value :=
  match f with
  | None => d
  | Some None => <[key := VNone]> d
  | Some (Some a) => <[key := inj a]> d
  end.

(** [request.model_dump(exclude_unset=True)]. *)
Definition model_dump (r : MatcherRequest) : gmap string value :=
  dump_field VStr "cell_type_requested" (cell_type_requested r)
    (dump_field VList "cell_type_list" (cell_type_list r)
      (dump_field VStr "species_requested" (species_requested r)
        (dump_field VList "species_list" (species_list r)
          (dump_field VStr "binding_molecule_requested" (binding_molecule_requested r)
            (dump_field VList "binding_molecule_list" (binding_molecule_list r) ∅))))).

Inductive http_response : Type :=
| Unprocessable (detail : string)                 (* 422: the body failed validation *)
| InternalError                                   (* 500: [MatcherLogicError] *)
| OK (body : gmap string (option string)).        (* 200 *)

Section Rest.
Context {St : Type}.
Variable invoke : St → template → prompt → llm_reply * St.

(** [perform_match], with the validation FastAPI runs before it. *)
Definition perform_match (fuel : nat) (request : MatcherRequest) (w : @world St)
    : outcome http_response * @world St :=
  match validate request with
  | Some detail => (Done (Unprocessable detail), w)
  | None =>
      match process_request_with_chunking invoke fuel (model_dump request)
              default_chunk_size w with
      | (Done response_data, w') => (Done (OK response_data), w')
      | (Raised e, w') =>
          if is_Exception e then (Done InternalError, w') else (Raised e, w')
      | (OutOfFuel, w') => (OutOfFuel, w')
      end
  end.
End Rest.

(** ** The framed socket session ([matcher_server.py]) *)

Definition BUFFER_SIZE : Z := 65536.

Definition byte_to_Z (b : byte) : Z := Z.of_N (Byte.to_N b).

Definition byte_of_Z (z : Z) : byte :=
  match Byte.of_N (Z.to_N (z mod 256)) with
  | Some b => b
  | None => x00
  end.

(** [struct.unpack('>I', b)[0]]; [None] is [struct.error]. *)
Definition unpack_be32 (b : list byte) : option Z :=
  match b with
  | [b0; b1; b2; b3] =>
      Some (((byte_to_Z b0 * 256 + byte_to_Z b1) * 256 + byte_to_Z b2) * 256 + byte_to_Z b3)%Z
  | _ => None
  end.

(** [struct.pack(">I", n)]; [None] is [struct.error]. *)
Definition pack_be32 (n : Z) : option (list byte) :=
  if bool_decide (0 ≤ n < 4294967296)%Z then
    Some [byte_of_Z (n / 16777216); byte_of_Z (n / 65536); byte_of_Z (n / 256); byte_of_Z n]
  else None.

(** The accepted connection as the session sees it.  The peer sends the
    bytes of [inbox] and then ends its stream, by closing or by a reset; a
    peer that stays connected and sends nothing more, on which [recv]
    would wait without end, is not among these connections. *)
Record conn : Type := Conn {
  inbox : list byte;     (* the bytes the peer sends before its stream ends *)
  reset : bool;          (* the stream ends by a reset, not an orderly close *)
  room : option nat;     (* how many more bytes the peer takes before the
                            connection breaks; [None]: all that is sent *)
  sent : list byte;      (* the bytes that went out to the peer *)
  closed : nat           (* how many times [client_socket.close()] ran *)
}.

Definition close (c : conn) : conn :=
  Conn (inbox c) (reset c) (room c) (sent c) (S (closed c)).

Definition consume (n : nat) (c : conn) : conn :=
  Conn (drop n (inbox c)) (reset c) (room c) (sent c) (closed c).

(** [recv(n, socket.MSG_WAITALL)]: waits for [n] bytes or the end of the
    stream. *)
Definition recv_waitall (n : nat) (c : conn) : outcome (list byte) * conn :=
  if bool_decide (n ≤ length (inbox c))%nat then (Done (take n (inbox c)), consume n c)
  else if reset c then (Raised ConnectionResetError, consume n c)
  else (Done (inbox c), consume n c).

(** [sendall(data)]: everything goes out, or the connection breaks on the
    way, after the bytes the peer still took, and the call raises. *)
Definition sendall (data : list byte) (c : conn) : outcome unit * conn :=
  match room c with
  | None => (Done tt, Conn (inbox c) (reset c) None (sent c ++ data)%list (closed c))
  | Some k =>
      if bool_decide (length data ≤ k) then
        (Done tt,
         Conn (inbox c) (reset c) (Some (k - length data)) (sent c ++ data)%list (closed c))
      else
        (Raised BrokenPipeError,
         Conn (inbox c) (reset c) (Some 0) (sent c ++ take k data)%list (closed c))
  end.

Section Session.
Context {St : Type}.
Variable invoke : St → template → prompt → llm_reply * St.
(** How many bytes a plain [recv(n)] hands over when [avail] bytes of the
    stream are still to come: the segmentation of the stream, which the
    session does not control.  At least one byte and at most [n] are
    taken whatever this says. *)
Variable arrive : nat → nat → nat.
(** [json.loads(data_recv.decode("utf-8"))]: [None] when it raises.  The
    documents considered are the JSON objects whose members are values in
    the sense of [value]. *)
Variable decode_payload : list byte → option (gmap string value).
(** [json.dumps(response_data).encode("utf-8")]. *)
Variable encode_response : gmap string (option string) → list byte.

(** [recv(n)] for [n >= 1]: an empty result is the end of the stream. *)
Definition recv (n : nat) (c : conn) : outcome (list byte) * conn :=
  match inbox c with
  | [] => if reset c then (Raised ConnectionResetError, c) else (Done [], c)
  | _ :: _ =>
      let k := Nat.max 1 (Nat.min n (arrive (length (inbox c)) n)) in
      (Done (take k (inbox c)), consume k c)
  end.

(** Lines 46-52: [while len(data_recv) < msglen]. *)
Fixpoint recv_payload (fuel : nat) (msglen : Z) (data_recv : list byte) (c : conn)
    : outcome (list byte) * conn :=
  if bool_decide (Z.of_nat (length data_recv) < msglen)%Z then
    match fuel with
    | O => (OutOfFuel, c)
    | S fuel' =>
        match recv (Z.to_nat (Z.min BUFFER_SIZE (msglen - Z.of_nat (length data_recv)))) c with
        | (Done packet, c') =>
            if bool_decide (length packet = 0) then (Raised ConnectionError, c')
            else recv_payload fuel' msglen (data_recv ++ packet)%list c'
        | other => other
        end
    end
  else (Done data_recv, c).

(** The longest candidate list bounds the rounds of every tournament. *)
Definition list_len (request_data : gmap string value) (key : string) : nat :=
  match request_data !! key with
  | Some v => length (as_choices v)
  | None => 0
  end.

Definition request_fuel (request_data : gmap string value) : nat :=
  list_len request_data "cell_type_list" + list_len request_data "binding_molecule_list"
  + list_len request_data "species_list".

(** Lines 28-96, the body of the [try]: [Done b] leaves with
    [connection_active = b]. *)
Definition serve_request (c : conn) (w : @world St) : outcome bool * conn * @world St :=
  match recv_waitall 4 c with
  | (Done msg_length_bytes, c1) =>
      if bool_decide (length msg_length_bytes = 0) then (Done false, c1, w)
      else
        match unpack_be32 msg_length_bytes with
        | None => (Raised StructError, c1, w)
        | Some msglen =>
            match recv_payload (S (length (inbox c1))) msglen [] c1 with
            | (Done data_recv, c2) =>
                if negb (bool_decide (Z.of_nat (length data_recv) = msglen)) then
                  (Done false, c2, w)
                else
                  match decode_payload data_recv with
                  | None => (Done false, c2, w)
                  | Some request_data =>
                      match process_request_with_chunking invoke (request_fuel request_data)
                              request_data default_chunk_size w with
                      | (Done response_data, w') =>
                          let response_bytes := encode_response response_data in
                          match pack_be32 (Z.of_nat (length response_bytes)) with
                          | None => (Raised StructError, c2, w')
                          | Some header =>
                              match sendall header c2 with
                              | (Done _, c3) =>
                                  match sendall response_bytes c3 with
                                  | (Done _, c4) => (Done true, c4, w')
                                  | (Raised e, c4) => (Raised e, c4, w')
                                  | (OutOfFuel, c4) => (OutOfFuel, c4, w')
                                  end
                              | (Raised e, c3) => (Raised e, c3, w')
                              | (OutOfFuel, c3) => (OutOfFuel, c3, w')
                              end
                          end
                      | (Raised e, w') => (Raised e, c2, w')
                      | (OutOfFuel, w') => (OutOfFuel, c2, w')
                      end
                  end
            | (Raised e, c2) => (Raised e, c2, w)
            | (OutOfFuel, c2) => (OutOfFuel, c2, w)
            end
        end
  | (Raised e, c1) => (Raised e, c1, w)
  | (OutOfFuel, c1) => (OutOfFuel, c1, w)
  end.

(** Lines 110-114: [finally: if not connection_active: client_socket.close()]. *)
Definition finally (connection_active : bool) (c : conn) : conn :=
  if connection_active then c else close c.

(** One pass of the [while] body: the [try], its three [except] clauses
    (each sets [connection_active = False]; none catches [SystemExit]) and
    the [finally]. *)
Definition iteration (c : conn) (w : @world St) : outcome bool * conn * @world St :=
  match serve_request c w with
  | (Done connection_active, c', w') =>
      (Done connection_active, finally connection_active c', w')
  | (Raised e, c', w') =>
      if is_Exception e then (Done false, finally false c', w')
      else (Raised e, finally true c', w')
  | (OutOfFuel, c', w') => (OutOfFuel, c', w')
  end.

(** Lines 25-114: [while connection_active]. *)
Fixpoint handle_client (fuel : nat) (c : conn) (w : @world St)
    : outcome unit * conn * @world St :=
  match fuel with
  | O => (OutOfFuel, c, w)
  | S fuel' =>
      match iteration c w with
      | (Done true, c', w') => handle_client fuel' c' w'
      | (Done false, c', w') => (Done tt, c', w')
      | (Raised e, c', w') => (Raised e, c', w')
      | (OutOfFuel, c', w') => (OutOfFuel, c', w')
      end
  end.
End Session.

(** ** The call count as the specification words it *)

(** [ceil(M/K) + ceil(C1/K) + ... + 1]: the chunks of round 0, the chunks of
    every championship round, and one final call. *)
Definition spec_call_count (K : nat) (M : nat) (championship_rounds : list (list string)) : nat :=
  ceil_div M K + sum_list (map (λ s, ceil_div (length s) K) championship_rounds) + 1.

(** The count the engine realises: the final call is made only when at
    least two finalists remain. *)
Definition call_count (K : nat) (M : nat) (championship_rounds : list (list string))
    (final_set : list string) : nat :=
  ceil_div M K + sum_list (map (λ s, ceil_div (length s) K) championship_rounds)
  + (if bool_decide (2 ≤ length final_set) then 1 else 0).

(** A champion set holds neither the empty string nor the literal "NULL". *)
Definition clean (l : list string) : Prop := ("" ∉ l) ∧ ("NULL" ∉ l).

(** What the dispatcher may have written under a category's [_actual] key:
    [None] for an empty pair, else the sentinel "NULL" or one of the
    candidates of that category. *)
Definition recorded (request_data : gmap string value) (prefix : string)
    (v : option string) : Prop :=
  ∃ q choices,
    request_data !! (prefix +:+ "_requested") = Some q
    ∧ request_data !! (prefix +:+ "_list") = Some choices
    ∧ ((falsy q || falsy choices = true ∧ v = None)
       ∨ (falsy q || falsy choices = false
          ∧ ∃ s, v = Some s ∧ s ≠ "" ∧ (s = "NULL" ∨ s ∈ as_choices choices))).


(** The keys of two categories do not collide. *)
Definition distinct_keys (p p' : string) : Prop :=
  p' +:+ "_requested" ≠ p +:+ "_requested"
  ∧ p' +:+ "_list" ≠ p +:+ "_requested"
  ∧ p' +:+ "_actual" ≠ p +:+ "_actual".

(** ** Stub oracles and sample inputs *)

(** Answers with the first candidate it is offered. *)
Definition echo_first (s : unit) (chain : template) (p : prompt) : llm_reply * unit :=
  (Parsed (JObj [(actual_key p, JStr (hd "" (choices_list p)))]), tt).

(** Answers [answer] whatever it is offered. *)
Definition pick (answer : string) (s : unit) (chain : template) (p : prompt)
    : llm_reply * unit :=
  (Parsed (JObj [(actual_key p, JStr answer)]), tt).

Definition fresh : @world unit := World tt [].

Definition hek_choices : list string := ["GM12878"; "HEK293T"; "K562"].

Definition hek_request : gmap string value :=
  {[ "cell_type_requested" := VStr "hek-293"; "cell_type_list" := VList hek_choices ]}.

Definition hek_prompt : prompt := Prompt (VStr "hek-293") hek_choices "cell_type_actual".

(** A body with a candidate list for [cell_type] and no query for it. *)
Definition unpaired_list_request : MatcherRequest := {|
  cell_type_requested := None;
  cell_type_list := Some (Some ["HEK293T"]);
  species_requested := Some (Some "human");
  species_list := Some (Some ["Homo sapiens"; "Mus musculus"]);
  binding_molecule_requested := None;
  binding_molecule_list := None
|}.

(** The two bytes of the empty JSON object. *)
Definition empty_document : list byte := [x7b; x7d].

(** The bytes of the JSON text of the version-only result (x22 is the
    quotation mark). *)
Definition version_only_bytes : list byte :=
  [x7b; x22] ++ list_byte_of_string "matcher_version" ++ [x22; x3a; x20; x22]
  ++ list_byte_of_string "2.0" ++ [x22; x7d].

(** A decoder and an encoder that know these two documents only. *)
Definition decode_stub (payload : list byte) : option (gmap string value) :=
  match payload with
  | [x7b; x7d] => Some ∅
  | _ => None
  end.

Definition encode_stub (response_data : gmap string (option string)) : list byte :=
  if bool_decide (response_data = {[ "matcher_version" := Some "2.0" ]})
  then version_only_bytes else [].

(** Hands over everything that was asked for. *)
Definition whole_packets (avail n : nat) : nat := n.

(** Hands over one byte at a time. *)
Definition single_bytes (avail n : nat) : nat := 1.

(** What a socket operation leaves untouched: it writes nothing, closes
    nothing and only takes bytes from the stream. *)
Definition same_line (c c' : conn) : Prop :=
  sent c' = sent c ∧ closed c' = closed c ∧ room c' = room c
  ∧ reset c' = reset c ∧ length (inbox c') ≤ length (inbox c).

(** Computes the keys built from a literal prefix. *)
Ltac eval_keys :=
  repeat match goal with
  | |- context [String.app ?a ?b] =>
      let c := eval vm_compute in (String.app a b) in
      change (String.app a b) with c
  end.

(** A prompt of the tournament over [candidates] for the query [q]: it
    carries the query and the category's key, and offers at least one and
    at most [K] of the candidates. *)
Definition tournament_prompt (q : value) (key : string) (K : Z) (candidates : list string)
    (p : prompt) : Prop :=
  input_term p = q ∧ actual_key p = key
  ∧ 1 ≤ length (choices_list p) ∧ (Z.of_nat (length (choices_list p)) ≤ K)%Z
  ∧ choices_list p ⊆ candidates.

(** An oracle that cannot be reached: every call raises. *)
Definition unreachable_oracle (s : unit) (chain : template) (p : prompt) : llm_reply * unit :=
  (InvokeError, tt).


(** No call of the oracle yields a champion: it raises, answers with
    something that is not the expected JSON object, declines, or names a
    value it was not offered. *)
Definition silent {St : Type} (invoke : St → template → prompt → llm_reply * St) : Prop :=
  ∀ s chain p, chunk_winner (actual_key p) (choices_list p) (invoke s chain p).1 = None.

(** The entry [model_dump] makes of a field: none for an unset field. *)
Definition dumped {A : Type} (inj : A → value) (f : field A) : option value :=
  match f with
  | None => None
  | Some None => Some VNone
  | Some (Some a) => Some (inj a)
  end.

(** ** The response model of the REST front end *)

Record MatcherResponse : Type := {
  matcher_version : string;
  cell_type_actual : option string;
  species_actual : option string;
  binding_molecule_actual : option string
}.

(** A keyword argument for an [Optional[str]] field: absent (the default
    [None]) or given, [None] included. *)
Definition optional_kwarg (d : gmap string (option string)) (key : string) : option string :=
  match d !! key with
  | Some v => v
  | None => None
  end.

(** The [MatcherResponse] built from [response_data] as keyword
    arguments (line 126): [None] is the
    [ValidationError] raised when [matcher_version] is missing or not a
    string; keys that are no field of the model are ignored. *)
Definition MatcherResponse_of (response_data : gmap string (option string))
    : option MatcherResponse :=
  match response_data !! "matcher_version" with
  | Some (Some version) =>
      Some {| matcher_version := version;
              cell_type_actual := optional_kwarg response_data "cell_type_actual";
              species_actual := optional_kwarg response_data "species_actual";
              binding_molecule_actual :=
                optional_kwarg response_data "binding_molecule_actual" |}
  | _ => None
  end.

(** A category of the request that is matched: both keys, neither empty. *)
Definition matched_pair (request_data : gmap string value) (prefix : string) : Prop :=
  ∃ q choices, request_data !! (prefix +:+ "_requested") = Some q
               ∧ request_data !! (prefix +:+ "_list") = Some choices
               ∧ falsy q || falsy choices = false.

(** ** Frames of the socket protocol, and the listener *)

(** A request frame as the peer wrote it: the four bytes of the length
    prefix, then the payload. *)
Definition frame_bytes (f : list byte * list byte) : list byte := f.1 ++ f.2.

(** The prefix announces the length of the payload. *)
Definition well_framed (f : list byte * list byte) : Prop :=
  unpack_be32 f.1 = Some (Z.of_nat (length f.2)).

(** [out] is the response frame of lines 94-96 for [response_bytes]. *)
Definition is_response_frame (response_bytes out : list byte) : Prop :=
  ∃ header, pack_be32 (Z.of_nat (length response_bytes)) = Some header
            ∧ out = header ++ response_bytes.


Section Listener.
Context {St : Type}.
Variable invoke : St → template → prompt → llm_reply * St.
Variable arrive : nat → nat → nat.
Variable decode_payload : list byte → option (gmap string value).
Variable encode_response : gmap string (option string) → list byte.

(** The results of [process_request_with_chunking] on a sequence of
    request documents, the oracle's state and the log of calls passing
    from one request to the next. *)
Fixpoint answers (requests : list (gmap string value)) (w : @world St)
    : list (gmap string (option string)) * @world St :=
  match requests with
  | [] => ([], w)
  | request_data :: more =>
      match process_request_with_chunking invoke (request_fuel request_data) request_data
              default_chunk_size w with
      | (Done response_data, w') =>
          let '(responses, w'') := answers more w' in (response_data :: responses, w'')
      | (_, w') => ([], w')
      end
  end.


End Listener.

(** ** The exchanges with the oracle *)

Section Exchanges.
Context {St : Type}.
Variable invoke : St → template → prompt → llm_reply * St.


End Exchanges.



(** ** Request documents the engine can read *)

(** The candidate list of a category can be iterated, where line 215 is
    reached with it: both keys present, neither value falsy. *)
Definition list_ok (request_data : gmap string value) (prefix : string) : bool :=
  match request_data !! (prefix +:+ "_requested"), request_data !! (prefix +:+ "_list") with
  | Some q, Some choices => falsy q || falsy choices || iterable choices
  | _, _ => true
  end.

Definition lists_iterable (request_data : gmap string value) : bool :=
  forallb (list_ok request_data) possible_prefixes.

(** * Properties *)

(** ** Arithmetic of chunk counts *)

Lemma ceil_div_le (n k : nat) : 1 ≤ k → ceil_div n k ≤ n.
Proof.
  intros Hk. unfold ceil_div.
  assert ((n + k - 1) / k < S n); [|lia].
  apply Nat.Div0.div_lt_upper_bound. nia.
Qed.

Lemma ceil_div_lt (n k : nat) : 2 ≤ k → 2 ≤ n → ceil_div n k < n.
Proof.
  intros Hk Hn. unfold ceil_div.
  apply Nat.Div0.div_lt_upper_bound. nia.
Qed.


Lemma ceil_div_cover (n k : nat) : 1 ≤ k → n ≤ ceil_div n k * k.
Proof.
  intros Hk. unfold ceil_div.
  assert (k ≠ 0) as Hk0 by lia.
  pose proof (Nat.div_mod_eq (n + k - 1) k) as Hdm.
  pose proof (Nat.mod_upper_bound (n + k - 1) k Hk0) as Hlt.
  nia.
Qed.

(** ** Chunking *)

Lemma make_chunks_pos (l : list string) (K : Z) :
  (0 < K)%Z →
  make_chunks l K =
    Some (map (λ i, slice l i (i + Z.to_nat K))
            (map (λ j, j * Z.to_nat K) (seq 0 (ceil_div (length l) (Z.to_nat K))))).
Proof.
  intros HK. unfold make_chunks, py_range0.
  rewrite bool_decide_eq_false_2 by lia.
  rewrite bool_decide_eq_true_2 by lia. done.
Qed.

Lemma make_chunks_zero (l : list string) : make_chunks l 0 = None.
Proof. done. Qed.

Lemma make_chunks_neg (l : list string) (K : Z) : (K < 0)%Z → make_chunks l K = Some [].
Proof.
  intros HK. unfold make_chunks, py_range0.
  rewrite bool_decide_eq_false_2 by lia.
  rewrite bool_decide_eq_false_2 by lia. done.
Qed.

Lemma make_chunks_length (l : list string) (K : Z) (chunks : list (list string)) :
  (0 < K)%Z → make_chunks l K = Some chunks →
  length chunks = ceil_div (length l) (Z.to_nat K).
Proof.
  intros HK. rewrite make_chunks_pos by done. intros [= <-].
  by rewrite !length_map, length_seq.
Qed.

Lemma slice_subseteq (l : list string) (i j : nat) : slice l i j ⊆ l.
Proof.
  unfold slice. etrans; [apply subseteq_take | apply subseteq_drop].
Qed.

Lemma make_chunks_subseteq (l : list string) (K : Z) (chunks : list (list string))
    (chunk : list string) :
  make_chunks l K = Some chunks → chunk ∈ chunks → chunk ⊆ l.
Proof.
  unfold make_chunks. destruct (py_range0 (length l) K) as [starts|]; [|done].
  intros [= <-] Hin. apply list_elem_of_In, in_map_iff in Hin as (i & <- & _).
  apply slice_subseteq.
Qed.

Lemma make_chunks_bounded (l : list string) (K : Z) (chunks : list (list string))
    (chunk : list string) :
  make_chunks l K = Some chunks → chunk ∈ chunks → (Z.of_nat (length chunk) ≤ K)%Z.
Proof.
  unfold make_chunks. destruct (py_range0 (length l) K) as [starts|] eqn:Hr; [|done].
  intros [= <-] Hin. apply list_elem_of_In, in_map_iff in Hin as (i & <- & Hi).
  unfold py_range0 in Hr. repeat case_bool_decide; simplify_eq.
  unfold slice. rewrite length_take. lia.
Qed.

(** The chunks cover the list, in order and without overlap. *)
Lemma concat_slices (l : list string) (k n : nat) :
  concat (map (λ i, slice l i (i + k)) (map (λ j, j * k) (seq 0 n))) = take (n * k) l.
Proof.
  induction n as [|n IH]; [done|].
  rewrite seq_S, !map_app, concat_app, IH. simpl. rewrite app_nil_r.
  unfold slice. replace (n * k + k - n * k) with k by lia.
  replace (k + n * k) with (n * k + k) by lia.
  by rewrite take_take_drop.
Qed.

Lemma make_chunks_concat (l : list string) (K : Z) (chunks : list (list string)) :
  (0 < K)%Z → make_chunks l K = Some chunks → concat chunks = l.
Proof.
  intros HK. rewrite make_chunks_pos by done. intros [= <-].
  rewrite concat_slices. apply take_ge, ceil_div_cover. lia.
Qed.

(** ** Deduplication *)

Lemma sorted_set_elem (l : list string) (x : string) : x ∈ sorted_set l ↔ x ∈ l.
Proof.
  unfold sorted_set. rewrite merge_sort_Permutation. apply elem_of_remove_dups.
Qed.

Lemma length_remove_dups_le (l : list string) : length (remove_dups l) ≤ length l.
Proof.
  induction l as [|x l IH]; simpl; [done|].
  destruct (decide_rel elem_of x l); simpl; lia.
Qed.

Lemma sorted_set_length (l : list string) : length (sorted_set l) ≤ length l.
Proof.
  unfold sorted_set. rewrite merge_sort_Permutation. apply length_remove_dups_le.
Qed.

Lemma sorted_set_NoDup (l : list string) : NoDup (sorted_set l).
Proof.
  unfold sorted_set. rewrite merge_sort_Permutation. apply NoDup_remove_dups.
Qed.

Lemma sorted_set_sorted (l : list string) : StronglySorted String.le (sorted_set l).
Proof. unfold sorted_set. apply (StronglySorted_merge_sort _). Qed.

Lemma sorted_set_clean (l : list string) : clean l → clean (sorted_set l).
Proof. unfold clean. by rewrite !sorted_set_elem. Qed.

(** The result depends on the set of champions only, not on the order in
    which the chunks delivered them. *)
Lemma sorted_set_canonical (l1 l2 : list string) :
  (∀ x, x ∈ l1 ↔ x ∈ l2) → sorted_set l1 = sorted_set l2.
Proof.
  intros Heq. apply (Sorted_unique String.le).
  - apply StronglySorted_Sorted, sorted_set_sorted.
  - apply StronglySorted_Sorted, sorted_set_sorted.
  - apply NoDup_Permutation; [apply sorted_set_NoDup..|].
    intros x. by rewrite !sorted_set_elem.
Qed.

(** ** One oracle call *)

Lemma py_in_elem (j : json) (chunk : list string) (s : string) :
  py_in j chunk = Some s → j = JStr s ∧ s ∈ chunk.
Proof.
  destruct j; simpl; try done.
  case_bool_decide; [|done]. by intros [= ->].
Qed.

Lemma chunk_winner_inv (key : string) (chunk : list string) (r : llm_reply) (s : string) :
  chunk_winner key chunk r = Some s →
  reply_value key r = Some (JStr s) ∧ s ∈ chunk ∧ s ≠ "" ∧ s ≠ "NULL".
Proof.
  unfold chunk_winner. destruct (reply_value key r) as [m|]; [|done].
  destruct (truthy m && negb (py_eq_str m "NULL")) eqn:Hguard; [|done].
  intros [-> Hin]%py_in_elem.
  apply andb_prop in Hguard as [Ht Hn]. simpl in Ht, Hn.
  apply negb_true_iff, bool_decide_eq_false in Ht.
  apply negb_true_iff, bool_decide_eq_false in Hn. done.
Qed.

Lemma final_winner_cases (key : string) (unique_champions : list string) (r : llm_reply) :
  (final_winner key unique_champions r = "NULL"
   ∧ ∀ s, reply_value key r = Some (JStr s) → s ∉ unique_champions)
  ∨ (reply_value key r = Some (JStr (final_winner key unique_champions r))
     ∧ final_winner key unique_champions r ∈ unique_champions).
Proof.
  unfold final_winner. destruct (reply_value key r) as [m|]; [|by left].
  destruct (py_in m unique_champions) as [s|] eqn:Hin.
  - apply py_in_elem in Hin as [-> Hin]. by right.
  - left. split; [done|]. intros s [= ->]. simpl in Hin.
    case_bool_decide; done.
Qed.

Section TournamentFacts.
Context {St : Type}.
Variable invoke : St → template → prompt → llm_reply * St.
Implicit Types (w : @world St) (chain : template) (q : value) (key : string).

Lemma ask_calls chain (p : prompt) w :
  calls (ask invoke chain p w).2 = calls w ++ [p].
Proof. unfold ask. by destruct (invoke (llm w) chain p). Qed.

Lemma ask_reply chain (p : prompt) w :
  (ask invoke chain p w).1 = (invoke (llm w) chain p).1
  ∧ llm (ask invoke chain p w).2 = (invoke (llm w) chain p).2.
Proof. unfold ask. by destruct (invoke (llm w) chain p). Qed.

(** *** The chunk loop *)

Lemma run_chunks_calls chain q key (chunks : list (list string)) (acc : list string) w :
  calls (run_chunks invoke chain q key chunks acc w).2
  = calls w ++ map (λ chunk, Prompt q chunk key) chunks.
Proof.
  revert acc w. induction chunks as [|chunk rest IH]; intros acc w; simpl.
  - by rewrite app_nil_r.
  - pose proof (ask_calls chain (Prompt q chunk key) w) as Hc.
    destruct (ask invoke chain (Prompt q chunk key) w) as [r w1]. simpl in Hc.
    rewrite IH, Hc, <- app_assoc. done.
Qed.

Lemma run_chunks_elem chain q key (chunks : list (list string)) (acc : list string) w
    (x : string) :
  x ∈ (run_chunks invoke chain q key chunks acc w).1 →
  x ∈ acc ∨ (∃ chunk, chunk ∈ chunks ∧ x ∈ chunk ∧ x ≠ "" ∧ x ≠ "NULL").
Proof.
  revert acc w. induction chunks as [|chunk rest IH]; intros acc w; simpl.
  - by left.
  - destruct (ask invoke chain (Prompt q chunk key) w) as [r w1].
    intros [Hacc|(c & Hc & Hx)]%IH.
    + destruct (chunk_winner key chunk r) as [m|] eqn:Hm; [|by left].
      apply elem_of_app in Hacc as [Hacc|Hx%list_elem_of_singleton]; [by left|].
      subst m. apply chunk_winner_inv in Hm as (_ & Hin & Hne & Hnn).
      right. exists chunk. split; [apply list_elem_of_here|done].
    + right. exists c. split; [by apply list_elem_of_further|done].
Qed.

Lemma run_chunks_length chain q key (chunks : list (list string)) (acc : list string) w :
  length (run_chunks invoke chain q key chunks acc w).1 ≤ length acc + length chunks.
Proof.
  revert acc w. induction chunks as [|chunk rest IH]; intros acc w; simpl; [lia|].
  destruct (ask invoke chain (Prompt q chunk key) w) as [r w1].
  etrans; [apply IH|]. destruct (chunk_winner key chunk r); rewrite ?length_app; simpl; lia.
Qed.

(** *** One round *)

Lemma play_round_inv chain q key (K : Z) (candidates next : list string) w w' :
  play_round invoke chain q key K candidates w = (Done next, w') →
  ∃ chunks, make_chunks candidates K = Some chunks
    ∧ next ⊆ candidates ∧ clean next ∧ NoDup next
    ∧ length next ≤ length chunks
    ∧ calls w' = calls w ++ map (λ chunk, Prompt q chunk key) chunks.
Proof.
  unfold play_round. destruct (make_chunks candidates K) as [chunks|] eqn:Hch; [|done].
  pose proof (run_chunks_calls chain q key chunks [] w) as Hcalls.
  pose proof (run_chunks_length chain q key chunks [] w) as Hlen.
  pose proof (run_chunks_elem chain q key chunks [] w) as Helem.
  destruct (run_chunks invoke chain q key chunks [] w) as [champions w1].
  simpl in *. intros [= <- <-]. exists chunks. split_and!; try done.
  - intros x [Hx|(c & Hc & Hx & _)]%sorted_set_elem%Helem.
    + by apply elem_of_nil in Hx.
    + by eapply make_chunks_subseteq.
  - split; intros [Hx|(c & _ & _ & ? & ?)]%sorted_set_elem%Helem;
      try done; by apply elem_of_nil in Hx.
  - apply sorted_set_NoDup.
  - etrans; [apply sorted_set_length|]. lia.
Qed.

Lemma play_round_outcome chain q key (K : Z) (candidates : list string) w :
  (K ≠ 0)%Z → ∃ next w', play_round invoke chain q key K candidates w = (Done next, w').
Proof.
  intros HK. unfold play_round.
  destruct (decide (0 < K)%Z) as [Hpos|Hneg].
  - rewrite make_chunks_pos by done.
    destruct (run_chunks _ _ _ _ _ _ _); eauto.
  - rewrite make_chunks_neg by lia. simpl. eauto.
Qed.

Lemma play_round_zero chain q key (candidates : list string) w :
  play_round invoke chain q key 0 candidates w = (Raised ValueError, w).
Proof. done. Qed.

(** With chunks of two or more, a round over two or more candidates
    returns strictly fewer of them. *)
Lemma play_round_shrinks chain q key (K : Z) (candidates next : list string) w w' :
  (0 < K)%Z →
  play_round invoke chain q key K candidates w = (Done next, w') →
  length next ≤ ceil_div (length candidates) (Z.to_nat K)
  ∧ length next ≤ length candidates
  ∧ ((2 ≤ K)%Z → 2 ≤ length candidates → length next < length candidates).
Proof.
  intros HK (chunks & Hch & _ & _ & _ & Hlen & _)%play_round_inv.
  apply make_chunks_length in Hch; [|done]. rewrite Hch in Hlen.
  split_and!; [done| |].
  - etrans; [done|]. apply ceil_div_le. lia.
  - intros HK2 Hn. eapply Nat.le_lt_trans; [done|]. apply ceil_div_lt; lia.
Qed.

(** *** The championship loop *)

Lemma championship_unfold (fuel : nat) chain q key (K : Z) (unique_champions : list string) w :
  championship invoke fuel chain q key K unique_champions w =
  if bool_decide (K < Z.of_nat (length unique_champions))%Z then
    match fuel with
    | O => (OutOfFuel, w)
    | S fuel' =>
        match play_round invoke chain q key K unique_champions w with
        | (Done next, w') =>
            match championship invoke fuel' chain q key K next w' with
            | (Done f, w'') =>
                (Done (Finish (unique_champions :: rounds f) (finalists f)), w'')
            | other => other
            end
        | (Raised e, w') => (Raised e, w')
        | (OutOfFuel, w') => (OutOfFuel, w')
        end
    end
  else (Done (Finish [] unique_champions), w).
Proof. by destruct fuel. Qed.

(** With chunks of two or more the loop is left after at most as many
    rounds as there are champions to begin with. *)
Lemma championship_total (fuel : nat) chain q key (K : Z) (unique_champions : list string) w :
  (2 ≤ K)%Z → length unique_champions ≤ fuel →
  ∃ f w', championship invoke fuel chain q key K unique_champions w = (Done f, w').
Proof.
  intros HK. revert unique_champions w.
  induction fuel as [|fuel IH]; intros uc w Hlen; rewrite championship_unfold.
  - rewrite bool_decide_eq_false_2 by lia. eauto.
  - case_bool_decide as Hgt; [|eauto].
    destruct (play_round_outcome chain q key K uc w) as (next & w1 & Hround); [lia|].
    rewrite Hround.
    apply play_round_shrinks in Hround as (_ & _ & Hlt); [|lia].
    destruct (IH next w1) as (f & w2 & ->); [|eauto].
    specialize (Hlt HK). lia.
Qed.

Lemma championship_done_nonneg (fuel : nat) chain q key (K : Z)
    (unique_champions : list string) w (f : finish) w' :
  championship invoke fuel chain q key K unique_champions w = (Done f, w') → (0 ≤ K)%Z.
Proof.
  revert unique_champions w f w'.
  induction fuel as [|fuel IH]; intros uc w f w'; rewrite championship_unfold;
    case_bool_decide as Hgt; try done; try lia.
  destruct (play_round invoke chain q key K uc w) as [[next| |] w1]; try done.
  destruct (championship invoke fuel chain q key K next w1) as [[f1| |] w2] eqn:Hrec;
    try done.
  intros _. by eapply IH.
Qed.

Lemma championship_inv (fuel : nat) chain q key (K : Z) (unique_champions : list string)
    w (f : finish) w' :
  championship invoke fuel chain q key K unique_champions w = (Done f, w') →
  finalists f ⊆ unique_champions
  ∧ (Z.of_nat (length (finalists f)) ≤ K)%Z
  ∧ (clean unique_champions → clean (finalists f) ∧ Forall clean (rounds f))
  ∧ (NoDup unique_champions → NoDup (finalists f))
  ∧ Forall (λ s, K < Z.of_nat (length s))%Z (rounds f)
  ∧ (rounds f = [] → finalists f = unique_champions ∧ w' = w)
  ∧ length (calls w')
    = length (calls w) + sum_list (map (λ s, ceil_div (length s) (Z.to_nat K)) (rounds f)).
Proof.
  revert unique_champions w f w'.
  induction fuel as [|fuel IH]; intros uc w f w'; rewrite championship_unfold;
    case_bool_decide as Hgt; try done.
  - intros [= <- <-]. simpl. split_and!; try done; lia.
  - destruct (play_round invoke chain q key K uc w) as [[next| |] w1] eqn:Hround; try done.
    destruct (championship invoke fuel chain q key K next w1) as [[f1| |] w2] eqn:Hrec;
      try done.
    intros [= <- <-]. simpl.
    pose proof (championship_done_nonneg _ _ _ _ _ _ _ _ _ Hrec) as Hnn.
    apply IH in Hrec as (Hsub & Hle & Hclean & Hnd & Hall & _ & Hcount).
    apply play_round_inv in Hround as (chunks & Hch & Hsub1 & Hclean1 & Hnd1 & _ & Hcalls).
    assert (0 < K)%Z as Hpos.
    { destruct (decide (K = 0)%Z) as [->|]; [done|lia]. }
    apply make_chunks_length in Hch; [|done].
    split_and!; try done.
    + by etrans.
    + intros Hc. split; [by apply Hclean|]. constructor; [done|by apply Hclean].
    + intros _. by apply Hnd.
    + by constructor.
    + rewrite Hcount, Hcalls, length_app, length_map, Hch. lia.
  - intros [= <- <-]. simpl. split_and!; try done; lia.
Qed.

(** *** The final decision *)

Lemma final_decision_two chain q key (unique_champions : list string) w :
  2 ≤ length unique_champions →
  final_decision invoke chain q key unique_champions w =
    (final_winner key unique_champions
       (ask invoke chain (Prompt q unique_champions key) w).1,
     (ask invoke chain (Prompt q unique_champions key) w).2).
Proof.
  intros Hlen. destruct unique_champions as [|a [|b rest]]; simpl in Hlen; try lia.
  unfold final_decision.
  by destruct (ask invoke chain (Prompt q (a :: b :: rest) key) w).
Qed.

Lemma final_decision_calls chain q key (unique_champions : list string) w :
  length (calls (final_decision invoke chain q key unique_champions w).2)
  = length (calls w) + (if bool_decide (2 ≤ length unique_champions) then 1 else 0).
Proof.
  destruct (decide (2 ≤ length unique_champions)) as [Hlen|Hlen].
  - rewrite final_decision_two by done. simpl.
    rewrite ask_calls, length_app, bool_decide_eq_true_2 by done. done.
  - rewrite bool_decide_eq_false_2 by done.
    destruct unique_champions as [|a [|b rest]]; simpl in *; lia.
Qed.

Lemma final_decision_answer chain q key (unique_champions : list string) w :
  (final_decision invoke chain q key unique_champions w).1 = "NULL"
  ∨ (final_decision invoke chain q key unique_champions w).1 ∈ unique_champions.
Proof.
  destruct (decide (2 ≤ length unique_champions)) as [Hlen|Hlen].
  - rewrite final_decision_two by done. simpl.
    destruct (final_winner_cases key unique_champions
                (ask invoke chain (Prompt q unique_champions key) w).1) as [[? _]|[_ ?]];
      [by left|by right].
  - destruct unique_champions as [|a [|b rest]]; simpl in *; [by left| |lia].
    right. apply list_elem_of_here.
Qed.

(** *** One category *)

Lemma get_chain_from_prefix_known (prefix : string) :
  prefix ∈ possible_prefixes → is_Some (get_chain_from_prefix prefix).
Proof.
  unfold possible_prefixes. rewrite !elem_of_cons, elem_of_nil.
  intros [->|[->|[->|[]]]]; by eexists.
Qed.

Lemma run_rounds_inv (fuel : nat) (K : Z) (prefix : string) q (choices : list string)
    w chain (f : finish) w2 :
  run_rounds invoke fuel K prefix q choices w = (Done (chain, f), w2) →
  get_chain_from_prefix prefix = Some chain
  ∧ ∃ first w1,
      play_round invoke chain q (prefix +:+ "_actual") K choices w = (Done first, w1)
      ∧ championship invoke fuel chain q (prefix +:+ "_actual") K first w1 = (Done f, w2).
Proof.
  unfold run_rounds. destruct (get_chain_from_prefix prefix) as [c|]; [|done].
  destruct (play_round invoke c q _ K choices w) as [[first| |] w1] eqn:Hround; try done.
  destruct (championship invoke fuel c q _ K first w1) as [[f1| |] w2'] eqn:Hloop; try done.
  intros [= <- <- <-]. eauto.
Qed.

Lemma run_rounds_total (fuel : nat) (K : Z) (prefix : string) q (choices : list string) w :
  (2 ≤ K)%Z → prefix ∈ possible_prefixes → length choices ≤ fuel →
  ∃ chain f w2, run_rounds invoke fuel K prefix q choices w = (Done (chain, f), w2).
Proof.
  intros HK [chain Hchain]%get_chain_from_prefix_known Hfuel.
  unfold run_rounds. rewrite Hchain.
  destruct (play_round_outcome chain q (prefix +:+ "_actual") K choices w)
    as (first & w1 & Hround); [lia|].
  rewrite Hround. apply play_round_shrinks in Hround as (_ & Hle & _); [|lia].
  destruct (championship_total fuel chain q (prefix +:+ "_actual") K first w1)
    as (f & w2 & ->); [done|lia|eauto].
Qed.

Lemma match_category_inv (fuel : nat) (K : Z) (prefix : string) q (choices : list string)
    w (final_answer : string) (f : finish) w3 :
  match_category invoke fuel K prefix q choices w = (Done (final_answer, f), w3) →
  ∃ chain w2,
    run_rounds invoke fuel K prefix q choices w = (Done (chain, f), w2)
    ∧ final_decision invoke chain q (prefix +:+ "_actual") (finalists f) w2
      = (final_answer, w3).
Proof.
  unfold match_category.
  destruct (run_rounds invoke fuel K prefix q choices w) as [[[chain f1]| |] w2]; try done.
  destruct (final_decision invoke chain q _ (finalists f1) w2) as [a w'] eqn:Hfinal.
  intros [= <- <- <-]. eauto.
Qed.

Lemma match_category_total (fuel : nat) (K : Z) (prefix : string) q
    (choices : list string) w :
  (2 ≤ K)%Z → prefix ∈ possible_prefixes → length choices ≤ fuel →
  ∃ final_answer f w3,
    match_category invoke fuel K prefix q choices w = (Done (final_answer, f), w3).
Proof.
  intros HK Hp Hfuel.
  destruct (run_rounds_total fuel K prefix q choices w) as (chain & f & w2 & Hrun);
    [done..|].
  unfold match_category. rewrite Hrun.
  destruct (final_decision invoke chain q _ (finalists f) w2). eauto.
Qed.

(** What the rounds of one category guarantee about the finalists. *)
Lemma run_rounds_finalists (fuel : nat) (K : Z) (prefix : string) q (choices : list string)
    w chain (f : finish) w2 :
  run_rounds invoke fuel K prefix q choices w = (Done (chain, f), w2) →
  finalists f ⊆ choices ∧ clean (finalists f) ∧ Forall clean (rounds f)
  ∧ NoDup (finalists f) ∧ (Z.of_nat (length (finalists f)) ≤ K)%Z.
Proof.
  intros (_ & first & w1 & Hround & Hloop)%run_rounds_inv.
  apply play_round_inv in Hround as (_ & _ & Hsub & Hclean & Hnd & _).
  apply championship_inv in Hloop as (Hsub' & Hle & Hclean' & Hnd' & _).
  destruct (Hclean' Hclean). split_and!; try done; [by etrans|by apply Hnd'].
Qed.

Lemma match_category_answer (fuel : nat) (K : Z) (prefix : string) q
    (choices : list string) w (final_answer : string) (f : finish) w3 :
  match_category invoke fuel K prefix q choices w = (Done (final_answer, f), w3) →
  final_answer = "NULL" ∨ (final_answer ∈ finalists f ∧ final_answer ∈ choices).
Proof.
  intros (chain & w2 & Hrun & Hfinal)%match_category_inv.
  apply run_rounds_finalists in Hrun as (Hsub & _).
  pose proof (final_decision_answer chain q (prefix +:+ "_actual") (finalists f) w2) as Hans.
  rewrite Hfinal in Hans. simpl in Hans.
  destruct Hans as [?|Hin]; [by left|right]. split; [done|by apply Hsub].
Qed.
(** *** What the engine raises *)

Lemma championship_raises (fuel : nat) chain q key (K : Z) (unique_champions : list string)
    w (e : exn) w' :
  championship invoke fuel chain q key K unique_champions w = (Raised e, w') →
  e = ValueError ∧ K = 0%Z.
Proof.
  revert unique_champions w.
  induction fuel as [|fuel IH]; intros uc w; rewrite championship_unfold;
    case_bool_decide; try done.
  unfold play_round at 1.
  destruct (make_chunks uc K) as [chunks|] eqn:Hch.
  - destruct (run_chunks invoke chain q key chunks [] w) as [champions w1].
    destruct (championship invoke fuel chain q key K (sorted_set champions) w1)
      as [[f| |] w2] eqn:Hrec; try done.
    intros [= <- <-]. by eapply IH.
  - intros [= <- <-]. split; [done|].
    destruct (decide (K = 0%Z)) as [|Hne]; [done|].
    destruct (decide (0 < K)%Z); [by rewrite make_chunks_pos in Hch|].
    by rewrite make_chunks_neg in Hch by lia.
Qed.

Lemma match_category_raises (fuel : nat) (K : Z) (prefix : string) q
    (choices : list string) w (e : exn) w' :
  prefix ∈ possible_prefixes →
  match_category invoke fuel K prefix q choices w = (Raised e, w') →
  e = ValueError ∧ K = 0%Z.
Proof.
  intros [chain Hchain]%get_chain_from_prefix_known.
  unfold match_category, run_rounds. rewrite Hchain. unfold play_round.
  destruct (make_chunks choices K) as [chunks|] eqn:Hch.
  - destruct (run_chunks invoke chain q _ chunks [] w) as [champions w1].
    destruct (championship invoke fuel chain q _ K (sorted_set champions) w1)
      as [[f| |] w2] eqn:Hloop.
    + by destruct (final_decision invoke chain q _ (finalists f) w2).
    + intros [= <- <-]. by eapply championship_raises.
    + done.
  - intros [= <- <-]. split; [done|].
    destruct (decide (K = 0%Z)) as [|Hne]; [done|].
    destruct (decide (0 < K)%Z); [by rewrite make_chunks_pos in Hch|].
    by rewrite make_chunks_neg in Hch by lia.
Qed.

End TournamentFacts.

(** ** The dispatcher *)

Lemma possible_prefixes_distinct (p p' : string) :
  p ∈ possible_prefixes → p' ∈ possible_prefixes → p' ≠ p → distinct_keys p p'.
Proof.
  unfold possible_prefixes. rewrite !elem_of_cons, !elem_of_nil.
  intros Hp Hp'.
  destruct Hp as [Hp|[Hp|[Hp|[]]]]; destruct Hp' as [Hp'|[Hp'|[Hp'|[]]]];
    subst p p'; intros Hne; done.
Qed.

Lemma possible_prefixes_not_version (p : string) :
  p ∈ possible_prefixes → p +:+ "_actual" ≠ "matcher_version".
Proof.
  unfold possible_prefixes. rewrite !elem_of_cons, !elem_of_nil.
  intros [->|[->|[->|[]]]]; done.
Qed.


Section DispatcherFacts.
Context {St : Type}.
Variable invoke : St → template → prompt → llm_reply * St.
Implicit Types (w : @world St) (request_data : gmap string value)
  (response_data : gmap string (option string)).

(** Entries of the result are those it started with or those written for
    a category of the request. *)
Lemma process_prefixes_inv (fuel : nat) (K : Z) request_data (prefixes : list string)
    response_data w response_data' w' (key : string) (v : option string) :
  process_prefixes invoke fuel K request_data prefixes response_data w
    = (Done response_data', w') →
  response_data' !! key = Some v →
  response_data !! key = Some v
  ∨ ∃ prefix, prefix ∈ prefixes ∧ key = prefix +:+ "_actual"
              ∧ recorded request_data prefix v.
Proof.
  revert response_data w.
  induction prefixes as [|prefix rest IH]; intros resp w; simpl.
  { intros [= <- <-] ?. by left. }
  destruct (request_data !! (prefix +:+ "_requested")) as [q|] eqn:Hq;
    [destruct (request_data !! (prefix +:+ "_list")) as [choices|] eqn:Hl|].
  - destruct (falsy q || falsy choices) eqn:Hfalsy.
    + intros Hrun Hkey. destruct (IH _ _ Hrun Hkey) as [Hold|(p & Hp & -> & Hrec)].
      * destruct (decide (prefix +:+ "_actual" = key)) as [<-|Hne].
        -- rewrite lookup_insert_eq in Hold. simplify_eq. right. exists prefix.
           split_and!; [apply list_elem_of_here|done|]. exists q, choices. naive_solver.
        -- rewrite lookup_insert_ne in Hold by done. by left.
      * right. exists p. split_and!; [by apply list_elem_of_further|done..].
    + destruct (iterable choices) eqn:Hiter; simpl; [|done].
      destruct (match_category invoke fuel K prefix q (as_choices choices) w)
        as [[[final_answer f]| |] w1] eqn:Hcat; try done.
      intros Hrun Hkey. destruct (IH _ _ Hrun Hkey) as [Hold|(p & Hp & -> & Hrec)].
      * destruct (decide (prefix +:+ "_actual" = key)) as [<-|Hne].
        -- rewrite lookup_insert_eq in Hold. simplify_eq. right. exists prefix.
           split_and!; [apply list_elem_of_here|done|]. exists q, choices.
           split_and!; [done..|]. right. split; [done|]. exists final_answer.
           pose proof Hcat as (chain & w2 & Hrun' & Hfinal)%match_category_inv.
           apply run_rounds_finalists in Hrun' as (_ & [Hne1 Hne2] & _).
           apply match_category_answer in Hcat as [->|[Hin Hin']]; [naive_solver|].
           split_and!; [done| |by right]. by intros ->.
        -- rewrite lookup_insert_ne in Hold by done. by left.
      * right. exists p. split_and!; [by apply list_elem_of_further|done..].
  - intros Hrun Hkey. destruct (IH _ _ Hrun Hkey) as [?|(p & Hp & -> & Hrec)]; [by left|].
    right. exists p. split_and!; [by apply list_elem_of_further|done..].
  - intros Hrun Hkey. destruct (IH _ _ Hrun Hkey) as [?|(p & Hp & -> & Hrec)]; [by left|].
    right. exists p. split_and!; [by apply list_elem_of_further|done..].
Qed.




(** No recognised pair: nothing is asked and nothing is written. *)
Lemma process_prefixes_none (fuel : nat) (K : Z) request_data (prefixes : list string)
    response_data w :
  (∀ prefix, prefix ∈ prefixes →
     request_data !! (prefix +:+ "_requested") = None
     ∨ request_data !! (prefix +:+ "_list") = None) →
  process_prefixes invoke fuel K request_data prefixes response_data w
  = (Done response_data, w).
Proof.
  induction prefixes as [|prefix rest IH]; intros Hnone; simpl; [done|].
  rewrite IH by (intros p Hp; apply Hnone; by apply list_elem_of_further).
  destruct (Hnone prefix) as [-> | ->]; [apply list_elem_of_here|done|].
  by destruct (request_data !! (prefix +:+ "_requested")).
Qed.

(** With chunks of two or more and fuel for the longest candidate list,
    every category is decided. *)
Lemma process_prefixes_total (fuel : nat) (K : Z) request_data (prefixes : list string)
    response_data w :
  (2 ≤ K)%Z →
  (∀ prefix, prefix ∈ prefixes →
     prefix ∈ possible_prefixes ∧ list_len request_data (prefix +:+ "_list") ≤ fuel
     ∧ list_ok request_data prefix = true) →
  ∃ response_data' w',
    process_prefixes invoke fuel K request_data prefixes response_data w
    = (Done response_data', w').
Proof.
  intros HK. revert response_data w.
  induction prefixes as [|prefix rest IH]; intros resp w Hok; simpl; [eauto|].
  assert (∀ resp' w', ∃ response_data' w'',
    process_prefixes invoke fuel K request_data rest resp' w'
    = (Done response_data', w'')) as Hrest.
  { intros resp' w'. apply IH. intros p Hp. apply Hok. by apply list_elem_of_further. }
  destruct (Hok prefix) as (Hknown & Hlen & Hiter); [apply list_elem_of_here|].
  unfold list_len in Hlen. unfold list_ok in Hiter.
  destruct (request_data !! (prefix +:+ "_requested")) as [q|]; [|done].
  destruct (request_data !! (prefix +:+ "_list")) as [choices|]; [|done].
  destruct (falsy q || falsy choices); [done|].
  simpl in Hiter. rewrite Hiter. simpl.
  destruct (match_category_total invoke fuel K prefix q (as_choices choices) w)
    as (final_answer & f & w3 & ->); done.
Qed.

Lemma request_fuel_enough request_data (prefix : string) :
  prefix ∈ possible_prefixes →
  list_len request_data (prefix +:+ "_list") ≤ request_fuel request_data.
Proof.
  unfold possible_prefixes, request_fuel. rewrite !elem_of_cons, elem_of_nil.
  intros [->|[->|[->|[]]]]; eval_keys; lia.
Qed.

(** The dispatcher raises the [ValueError] of a zero chunk size or the
    [TypeError] of a candidate list that cannot be iterated, and nothing
    else: [get_chain_from_prefix] is only called with prefixes it knows. *)
Lemma process_prefixes_raises (fuel : nat) (K : Z) request_data (prefixes : list string)
    response_data w (e : exn) w' :
  (∀ prefix, prefix ∈ prefixes → prefix ∈ possible_prefixes) →
  process_prefixes invoke fuel K request_data prefixes response_data w = (Raised e, w') →
  (e = ValueError ∧ K = 0%Z)
  ∨ (e = TypeError ∧ forallb (list_ok request_data) prefixes = false).
Proof.
  revert response_data w.
  induction prefixes as [|prefix rest IH]; intros resp w Hknown; simpl; [done|].
  assert (∀ (b : bool) resp' w0,
            process_prefixes invoke fuel K request_data rest resp' w0 = (Raised e, w') →
            (e = ValueError ∧ K = 0%Z)
            ∨ (e = TypeError ∧ b && forallb (list_ok request_data) rest = false)) as Hrest.
  { intros b resp' w0 Hrun. destruct (IH resp' w0) as [?|[-> ->]]; [|done|by left|].
    - intros p Hp. apply Hknown. by apply list_elem_of_further.
    - right. by rewrite andb_false_r. }
  assert (prefix ∈ possible_prefixes) as Hhead by apply Hknown, list_elem_of_here.
  unfold list_ok at 1.
  destruct (request_data !! (prefix +:+ "_requested")) as [q0|]; [|by apply Hrest].
  destruct (request_data !! (prefix +:+ "_list")) as [c0|]; [|by apply Hrest].
  destruct (falsy q0 || falsy c0); [by apply Hrest|].
  destruct (iterable c0); simpl.
  - destruct (match_category invoke fuel K prefix q0 (as_choices c0) w)
      as [[[a f]|e0|] w1] eqn:Hcat; [by apply (Hrest true)| |done].
    intros [= <- <-]. left. by eapply match_category_raises.
  - intros [= <- <-]. by right.
Qed.

Lemma process_request_raises (fuel : nat) (K : Z) request_data w (e : exn) w' :
  process_request_with_chunking invoke fuel request_data K w = (Raised e, w') →
  (e = ValueError ∧ K = 0%Z) ∨ (e = TypeError ∧ lists_iterable request_data = false).
Proof.
  unfold process_request_with_chunking.
  destruct (process_prefixes invoke fuel K request_data possible_prefixes ∅ w)
    as [[resp|e0|] w1] eqn:Hloop; try done.
  intros [= <- <-]. by apply process_prefixes_raises in Hloop.
Qed.

Lemma lists_iterable_elem request_data (prefix : string) :
  lists_iterable request_data = true → prefix ∈ possible_prefixes →
  list_ok request_data prefix = true.
Proof.
  unfold lists_iterable. rewrite forallb_forall. intros Hall Hp.
  by apply Hall, list_elem_of_In.
Qed.

(** A candidate list that cannot be iterated stops the request: the
    categories before it are decided, the [TypeError] of line 215 leaves
    the function and nothing is returned. *)
Lemma process_prefixes_type_error (fuel : nat) (K : Z) request_data (prefixes : list string)
    response_data w :
  (2 ≤ K)%Z →
  (∀ prefix, prefix ∈ prefixes →
     prefix ∈ possible_prefixes ∧ list_len request_data (prefix +:+ "_list") ≤ fuel) →
  forallb (list_ok request_data) prefixes = false →
  ∃ w', process_prefixes invoke fuel K request_data prefixes response_data w
        = (Raised TypeError, w').
Proof.
  intros HK. revert response_data w.
  induction prefixes as [|prefix rest IH]; intros resp w Hok Hbad; simpl in *; [done|].
  assert (forallb (list_ok request_data) rest = false →
          ∀ resp' w', ∃ w'',
            process_prefixes invoke fuel K request_data rest resp' w'
            = (Raised TypeError, w'')) as Hrest.
  { intros Hb resp' w'. apply IH; [|done]. intros p Hp. apply Hok.
    by apply list_elem_of_further. }
  destruct (Hok prefix) as (Hknown & Hlen); [apply list_elem_of_here|].
  unfold list_len in Hlen. unfold list_ok in Hbad at 1.
  destruct (request_data !! (prefix +:+ "_requested")) as [q|]; [|by apply Hrest].
  destruct (request_data !! (prefix +:+ "_list")) as [choices|]; [|by apply Hrest].
  destruct (falsy q || falsy choices); [by apply Hrest|].
  destruct (iterable choices); simpl in *; [|eauto].
  destruct (match_category_total invoke fuel K prefix q (as_choices choices) w)
    as (final_answer & f & w3 & ->); [done..|]. by apply Hrest.
Qed.

Lemma process_request_type_error (fuel : nat) (K : Z) request_data w :
  (2 ≤ K)%Z → request_fuel request_data ≤ fuel → lists_iterable request_data = false →
  ∃ w', process_request_with_chunking invoke fuel request_data K w = (Raised TypeError, w').
Proof.
  intros HK Hfuel Hbad. unfold process_request_with_chunking.
  destruct (process_prefixes_type_error fuel K request_data possible_prefixes ∅ w)
    as (w' & ->); [done| |done|eauto].
  intros prefix Hp. split; [done|]. etrans; [by apply request_fuel_enough|done].
Qed.

Lemma process_request_total (fuel : nat) (K : Z) request_data w :
  (2 ≤ K)%Z → request_fuel request_data ≤ fuel → lists_iterable request_data = true →
  ∃ response_data w',
    process_request_with_chunking invoke fuel request_data K w = (Done response_data, w')
    ∧ response_data !! "matcher_version" = Some (Some MATCHER_VERSION).
Proof.
  intros HK Hfuel Hiter. unfold process_request_with_chunking.
  destruct (process_prefixes_total fuel K request_data possible_prefixes ∅ w)
    as (resp & w' & ->); [done| |].
  - intros prefix Hp. split_and!; [done| |by apply lists_iterable_elem].
    etrans; [by apply request_fuel_enough|done].
  - eexists _, _. split; [done|]. apply lookup_insert_eq.
Qed.
End DispatcherFacts.

(** ** Rounds and the exchanges behind them *)



Section ExchangeLog.
Context {St : Type}.
Variable invoke : St → template → prompt → llm_reply * St.
Implicit Types (w : @world St) (chain : template) (q : value) (key : string).






End ExchangeLog.

(** * The claims *)



(** C2.  The final decision of a category is by cases on the deduplicated
    set of winners left by the rounds, which holds at most [chunk_size]
    distinct strings: none gives "NULL" and no call; exactly one gives that
    winner and no call; two or more give exactly one more call, over the
    whole set, whose answer is taken when it is a member of the set and
    replaced by "NULL" when it is not.  With a chunk size of two or more
    the decision is reached. *)
Theorem final_decision_by_cases {St : Type}
    (invoke : St → template → prompt → llm_reply * St) (fuel : nat) (K : Z)
    (prefix : string) (q : value) (choices : list string) (w : @world St) :
  (prefix ∈ possible_prefixes → (2 ≤ K)%Z → length choices ≤ fuel →
   ∃ final_answer f w3,
     match_category invoke fuel K prefix q choices w = (Done (final_answer, f), w3))
  ∧ ∀ final_answer f w3,
      match_category invoke fuel K prefix q choices w = (Done (final_answer, f), w3) →
      ∃ chain w2,
        run_rounds invoke fuel K prefix q choices w = (Done (chain, f), w2)
        ∧ NoDup (finalists f) ∧ (Z.of_nat (length (finalists f)) ≤ K)%Z
        ∧ (finalists f = [] → final_answer = "NULL" ∧ w3 = w2)
        ∧ (∀ c, finalists f = [c] → final_answer = c ∧ w3 = w2)
        ∧ (2 ≤ length (finalists f) →
             llm w3
             = (invoke (llm w2) chain (Prompt q (finalists f) (prefix +:+ "_actual"))).2
             ∧ calls w3 = calls w2 ++ [Prompt q (finalists f) (prefix +:+ "_actual")]
             ∧ ((reply_value (prefix +:+ "_actual")
                   (invoke (llm w2) chain
                      (Prompt q (finalists f) (prefix +:+ "_actual"))).1
                 = Some (JStr final_answer)
                 ∧ final_answer ∈ finalists f)
                ∨ (final_answer = "NULL"
                   ∧ ∀ s, reply_value (prefix +:+ "_actual")
                            (invoke (llm w2) chain
                               (Prompt q (finalists f) (prefix +:+ "_actual"))).1
                          = Some (JStr s) → s ∉ finalists f))).
Proof.
  split.
  { intros Hp HK Hfuel. by apply match_category_total. }
  intros final_answer f w3 (chain & w2 & Hrun & Hfinal)%match_category_inv.
  exists chain, w2. split; [done|].
  apply run_rounds_finalists in Hrun as (_ & _ & _ & Hnd & Hle).
  split_and!; try done.
  - intros Hnil. rewrite Hnil in Hfinal. by injection Hfinal as <- <-.
  - intros c Hone. rewrite Hone in Hfinal. by injection Hfinal as <- <-.
  - intros Htwo. rewrite final_decision_two in Hfinal by done.
    injection Hfinal as <- <-.
    destruct (ask_reply invoke chain (Prompt q (finalists f) (prefix +:+ "_actual")) w2)
      as [-> ->].
    rewrite ask_calls. split_and!; try done.
    destruct (final_winner_cases (prefix +:+ "_actual") (finalists f)
                (invoke (llm w2) chain
                   (Prompt q (finalists f) (prefix +:+ "_actual"))).1) as [?|?];
      [by right|by left].
Qed.

Lemma final_decision_by_cases_witness :
  ∃ chain w2,
    run_rounds (pick "HEK293T") 0 20 "cell_type" (VStr "hek-293") hek_choices fresh
      = (Done (chain, Finish [] ["HEK293T"]), w2)
    ∧ (∀ c, ["HEK293T"] = [c] → "HEK293T" = c ∧ World tt [hek_prompt] = w2).
Proof.
  destruct (proj2 (final_decision_by_cases (pick "HEK293T") 0 20 "cell_type"
              (VStr "hek-293") hek_choices fresh)
              "HEK293T" (Finish [] ["HEK293T"]) (World tt [hek_prompt]))
    as (chain & w2 & Hrun & _ & _ & _ & Hone & _).
  - vm_compute. reflexivity.
  - exists chain, w2. split; [exact Hrun|exact Hone].
Defined.

(** C9.  A candidate spelled "NULL", and the empty string, never win: an
    answer that is falsy or equal to "NULL" is a decline in every chunk
    round, also when the chunk holds that very string, so neither string is
    in any champion set nor among the finalists, and the final answer is
    either a finalist (hence neither of the two) or the sentinel "NULL"
    that stands for no match.  With a chunk size of two or more an answer
    is reached. *)
Theorem null_and_empty_never_win {St : Type}
    (invoke : St → template → prompt → llm_reply * St) (fuel : nat) (K : Z)
    (prefix : string) (q : value) (choices : list string) (w : @world St) :
  (∀ key chunk r m, reply_value key r = Some m →
     truthy m = false ∨ py_eq_str m "NULL" = true →
     chunk_winner key chunk r = None)
  ∧ truthy (JStr "") = false ∧ py_eq_str (JStr "NULL") "NULL" = true
  ∧ (prefix ∈ possible_prefixes → (2 ≤ K)%Z → length choices ≤ fuel →
     ∃ final_answer f w',
       match_category invoke fuel K prefix q choices w = (Done (final_answer, f), w'))
  ∧ ∀ final_answer f w',
      match_category invoke fuel K prefix q choices w = (Done (final_answer, f), w') →
      Forall clean (rounds f) ∧ clean (finalists f)
      ∧ final_answer ≠ ""
      ∧ (final_answer = "NULL" ∨ final_answer ∈ finalists f).
Proof.
  split_and!; try done.
  - intros key chunk r m Hm Hdecline. unfold chunk_winner. rewrite Hm.
    by destruct Hdecline as [-> | ->]; rewrite ?andb_false_r.
  - intros Hp HK Hfuel. by apply match_category_total.
  - intros final_answer f w' Hcat.
    pose proof Hcat as (chain & w2 & Hrun & _)%match_category_inv.
    apply run_rounds_finalists in Hrun as (_ & Hclean & Hrounds & _).
    split_and!; try done.
    + destruct Hclean as [Hempty _].
      apply match_category_answer in Hcat as [->|[Hin _]]; [done|]. by intros ->.
    + apply match_category_answer in Hcat as [->|[Hin _]]; [by left|by right].
Qed.

Lemma null_and_empty_never_win_witness :
  "NULL" ≠ "" ∧ ("NULL" = "NULL" ∨ "NULL" ∈ ([] : list string)).
Proof.
  refine (proj2 (proj2 (proj2 (proj2 (proj2 (proj2
    (null_and_empty_never_win (pick "NULL") 0 20 "cell_type" (VStr "none")
       ["NULL"; ""; "K562"] fresh)))) "NULL" (Finish [] [])
    (World tt [Prompt (VStr "none") ["NULL"; ""; "K562"] "cell_type_actual"]) _))).
  vm_compute. reflexivity.
Defined.

(** C3, as stated, fails for chunks of one: every chunk of a deduplicated
    set returns its only member, the next set is the same set, and the
    loop never ends. *)
Lemma echo_round_of_one (w : @world unit) :
  ∃ w', play_round echo_first CELL_TYPE_TEMPLATE (VStr "q") "cell_type_actual" 1
          ["a"; "b"] w = (Done ["a"; "b"], w').
Proof. eexists. vm_compute. reflexivity. Qed.

Lemma echo_loop_of_one (fuel : nat) (w : @world unit) :
  (championship echo_first fuel CELL_TYPE_TEMPLATE (VStr "q") "cell_type_actual" 1
     ["a"; "b"] w).1 = OutOfFuel.
Proof.
  revert w. induction fuel as [|fuel IH]; intros w; rewrite championship_unfold.
  - done.
  - rewrite bool_decide_eq_true_2 by (simpl; lia).
    destruct (echo_round_of_one w) as [w1 ->].
    specialize (IH w1).
    by destruct (championship echo_first fuel _ _ _ 1 ["a"; "b"] w1) as [[?| |] ?].
Qed.

Lemma chunk_size_one_never_shrinks :
  (play_round echo_first CELL_TYPE_TEMPLATE (VStr "q") "cell_type_actual" 1
     ["a"; "b"] fresh).1 = Done ["a"; "b"]
  ∧ (∀ fuel,
       (championship echo_first fuel CELL_TYPE_TEMPLATE (VStr "q") "cell_type_actual" 1
          ["a"; "b"] fresh).1 = OutOfFuel)
  ∧ (∀ fuel,
       (match_category echo_first fuel 1 "cell_type" (VStr "q") ["b"; "a"] fresh).1
       = OutOfFuel).
Proof.
  split_and!.
  - vm_compute. reflexivity.
  - intros fuel. apply echo_loop_of_one.
  - intros fuel. unfold match_category, run_rounds.
    change (get_chain_from_prefix "cell_type") with (Some CELL_TYPE_TEMPLATE).
    change ("cell_type" +:+ "_actual") with "cell_type_actual". cbv beta iota.
    replace (play_round echo_first CELL_TYPE_TEMPLATE (VStr "q") "cell_type_actual"
               1 ["b"; "a"] fresh)
      with (Done ["a"; "b"] : outcome (list string),
            World tt [Prompt (VStr "q") ["b"] "cell_type_actual";
                      Prompt (VStr "q") ["a"] "cell_type_actual"])
      by (vm_compute; reflexivity).
    pose proof (echo_loop_of_one fuel
      (World tt [Prompt (VStr "q") ["b"] "cell_type_actual";
                 Prompt (VStr "q") ["a"] "cell_type_actual"])) as Hloop.
    by destruct (championship echo_first fuel _ _ _ 1 ["a"; "b"] _) as [[?| |] ?].
Qed.

(** C3, amended.  With a chunk size of two or more, for every candidate
    set and every oracle: a round returns a subset of the candidates it was
    given, never larger than that set and no larger than the number of its
    chunks, and strictly smaller as soon as the set holds two candidates or
    more (in particular whenever the loop runs another round); so the
    championship loop ends, and so do the rounds of every category. *)
Theorem rounds_shrink_and_loop_ends {St : Type}
    (invoke : St → template → prompt → llm_reply * St) (chain : template) (q : value)
    (key : string) (K : Z) (candidates : list string) (w : @world St) :
  (2 ≤ K)%Z →
  (∃ next w',
     play_round invoke chain q key K candidates w = (Done next, w')
     ∧ next ⊆ candidates ∧ NoDup next
     ∧ length next ≤ ceil_div (length candidates) (Z.to_nat K)
     ∧ length next ≤ length candidates
     ∧ (2 ≤ length candidates → length next < length candidates))
  ∧ (∀ fuel, length candidates ≤ fuel →
       ∃ f w', championship invoke fuel chain q key K candidates w = (Done f, w')
               ∧ finalists f ⊆ candidates
               ∧ (Z.of_nat (length (finalists f)) ≤ K)%Z)
  ∧ (∀ fuel prefix, prefix ∈ possible_prefixes → length candidates ≤ fuel →
       ∃ final_answer f w',
         match_category invoke fuel K prefix q candidates w
         = (Done (final_answer, f), w')).
Proof.
  intros HK. split_and!.
  - destruct (play_round_outcome invoke chain q key K candidates w)
      as (next & w' & Hround); [lia|].
    exists next, w'. split; [done|].
    pose proof Hround as (_ & _ & Hsub & _ & Hnd & _)%play_round_inv.
    apply play_round_shrinks in Hround as (Hceil & Hle & Hlt); [|lia].
    split_and!; try done. by apply Hlt.
  - intros fuel Hfuel.
    destruct (championship_total invoke fuel chain q key K candidates w)
      as (f & w' & Hloop); [done..|].
    exists f, w'. split; [done|].
    by apply championship_inv in Hloop as (? & ? & _).
  - intros fuel prefix Hp Hfuel. by apply match_category_total.
Qed.

Lemma rounds_shrink_and_loop_ends_witness :
  ∃ f w', championship echo_first 5 CELL_TYPE_TEMPLATE (VStr "q") "cell_type_actual" 2
            ["a"; "b"; "c"; "d"; "e"] fresh = (Done f, w')
          ∧ finalists f ⊆ ["a"; "b"; "c"; "d"; "e"]
          ∧ (Z.of_nat (length (finalists f)) ≤ 2)%Z.
Proof.
  refine (proj1 (proj2 (rounds_shrink_and_loop_ends echo_first CELL_TYPE_TEMPLATE (VStr "q")
    "cell_type_actual" 2 ["a"; "b"; "c"; "d"; "e"] fresh _)) 5 _).
  - lia.
  - simpl. lia.
Defined.

(** C7, as stated, fails whenever a single champion (or none) is left: the
    engine then makes no final call.  Three candidates in one chunk cost
    one call, where the stated sum gives two. *)
Lemma single_champion_costs_one_call :
  match_category (pick "HEK293T") 0 20 "cell_type" (VStr "hek-293") hek_choices fresh
  = (Done ("HEK293T", Finish [] ["HEK293T"]), World tt [hek_prompt])
  ∧ length (calls (World tt [hek_prompt])) = 1
  ∧ spec_call_count 20 (length hek_choices) [] = 2.
Proof. split_and!; vm_compute; reflexivity. Qed.

Lemma match_category_calls {St : Type}
    (invoke : St → template → prompt → llm_reply * St) (fuel : nat) (K : Z)
    (prefix : string) (q : value) (choices : list string) (w : @world St)
    (final_answer : string) (f : finish) (w' : @world St) :
  (0 < K)%Z →
  match_category invoke fuel K prefix q choices w = (Done (final_answer, f), w') →
  length (calls w')
  = length (calls w) + call_count (Z.to_nat K) (length choices) (rounds f) (finalists f).
Proof.
  intros HK (chain & w2 & Hrun & Hfinal)%match_category_inv.
  apply run_rounds_inv in Hrun as (_ & first & w1 & Hround & Hloop).
  apply play_round_inv in Hround as (chunks & Hch & _ & _ & _ & _ & Hcalls).
  apply make_chunks_length in Hch; [|done].
  apply championship_inv in Hloop as (_ & _ & _ & _ & _ & _ & Hcount).
  pose proof (final_decision_calls invoke chain q (prefix +:+ "_actual") (finalists f) w2)
    as Hlast.
  rewrite Hfinal in Hlast. simpl in Hlast.
  rewrite Hlast, Hcount, Hcalls, length_app, length_map, Hch.
  unfold call_count. lia.
Qed.

(** C7, amended.  For a chunk size [K >= 1], a tournament over [M]
    candidates that returns has made [ceil(M/K)] calls in round 0, plus
    [ceil(C/K)] calls for every set of [C > K] unique champions that the
    championship loop chunked again, plus one final call when at least two
    finalists remain and none otherwise; for [K >= 2] every tournament
    returns.  In particular 45 candidates with [K = 20] go through no
    championship round, and cost exactly 4 calls when round 0 leaves 3
    distinct champions. *)
Theorem tournament_call_count {St : Type}
    (invoke : St → template → prompt → llm_reply * St) (fuel : nat) (K : Z)
    (prefix : string) (q : value) (choices : list string) (w : @world St) :
  prefix ∈ possible_prefixes → (0 < K)%Z →
  (∀ final_answer f w',
     match_category invoke fuel K prefix q choices w = (Done (final_answer, f), w') →
     Forall (λ s, Z.to_nat K < length s) (rounds f)
     ∧ length (calls w')
       = length (calls w)
         + call_count (Z.to_nat K) (length choices) (rounds f) (finalists f))
  ∧ ((2 ≤ K)%Z → length choices ≤ fuel →
     ∃ final_answer f w',
       match_category invoke fuel K prefix q choices w = (Done (final_answer, f), w'))
  ∧ (K = 20%Z → length choices = 45 →
     ∃ final_answer f w',
       match_category invoke fuel K prefix q choices w = (Done (final_answer, f), w')
       ∧ rounds f = []
       ∧ (length (finalists f) = 3 → length (calls w') = length (calls w) + 4)).
Proof.
  intros Hp HK. split_and!.
  - intros final_answer f w' Hcat. split; [|by eapply match_category_calls].
    apply match_category_inv in Hcat as (chain & w2 & Hrun & _).
    apply run_rounds_inv in Hrun as (_ & first & w1 & _ & Hloop).
    apply championship_inv in Hloop as (_ & _ & _ & _ & Hall & _).
    eapply Forall_impl; [done|]. simpl. lia.
  - intros HK2 Hfuel. by apply match_category_total.
  - intros -> Hlen.
    destruct (get_chain_from_prefix_known prefix Hp) as [chain Hchain].
    destruct (play_round_outcome invoke chain q (prefix +:+ "_actual") 20 choices w)
      as (first & w1 & Hround); [done|].
    pose proof Hround as (Hceil & _)%play_round_shrinks; [|done].
    rewrite Hlen in Hceil. change (ceil_div 45 (Z.to_nat 20)) with 3 in Hceil.
    assert (match_category invoke fuel 20 prefix q choices w
            = (Done ((final_decision invoke chain q (prefix +:+ "_actual") first w1).1,
                     Finish [] first),
               (final_decision invoke chain q (prefix +:+ "_actual") first w1).2)) as Hcat.
    { unfold match_category, run_rounds. rewrite Hchain, Hround, championship_unfold.
      rewrite bool_decide_eq_false_2 by lia. simpl.
      by destruct (final_decision invoke chain q _ first w1). }
    eexists _, _, _. split; [exact Hcat|]. split; [done|]. simpl. intros Hthree.
    apply match_category_calls in Hcat; [|done]. rewrite Hcat. simpl.
    unfold call_count. rewrite Hlen, Hthree. done.
Qed.

Lemma tournament_call_count_witness :
  ∃ final_answer f w',
    match_category echo_first 0 20 "cell_type" (VStr "q")
      (map (λ n, String (ascii_of_nat (48 + n)) "") (seq 0 45)) fresh
    = (Done (final_answer, f), w')
    ∧ rounds f = []
    ∧ (length (finalists f) = 3 → length (calls w') = length (calls fresh) + 4).
Proof.
  refine (proj2 (proj2 (tournament_call_count echo_first 0 20 "cell_type" (VStr "q")
    (map (λ n, String (ascii_of_nat (48 + n)) "") (seq 0 45)) fresh _ _)) _ _).
  - unfold possible_prefixes. apply list_elem_of_here.
  - lia.
  - reflexivity.
  - vm_compute. reflexivity.
Defined.






(** ** The REST validation *)

Lemma perform_match_rejected {St : Type}
    (invoke : St → template → prompt → llm_reply * St) (fuel : nat)
    (r : MatcherRequest) (w : @world St) (detail : string) :
  validate r = Some detail →
  perform_match invoke fuel r w = (Done (Unprocessable detail), w).
Proof. intros Hv. unfold perform_match. by rewrite Hv. Qed.

(** An unpaired key of the request leaves no trace in the result. *)
Lemma unpaired_key_ignored {St : Type}
    (invoke : St → template → prompt → llm_reply * St) (fuel : nat) (K : Z)
    (request_data : gmap string value) (w : @world St)
    (response_data : gmap string (option string)) (w' : @world St) (prefix : string) :
  process_request_with_chunking invoke fuel request_data K w = (Done response_data, w') →
  prefix ∈ possible_prefixes →
  request_data !! (prefix +:+ "_requested") = None
  ∨ request_data !! (prefix +:+ "_list") = None →
  response_data !! (prefix +:+ "_actual") = None.
Proof.
  intros Hrun Hp Hnone. unfold process_request_with_chunking in Hrun.
  destruct (process_prefixes invoke fuel K request_data possible_prefixes ∅ w)
    as [[resp| |] w1] eqn:Hloop; try done.
  injection Hrun as <- <-.
  rewrite lookup_insert_ne by (symmetry; by apply possible_prefixes_not_version).
  destruct (resp !! (prefix +:+ "_actual")) as [v|] eqn:Hres; [exfalso|done].
  destruct (process_prefixes_inv invoke _ _ _ _ _ _ _ _ _ _ Hloop Hres)
    as [Hempty|(p & Hp' & Hkey & q & choices & Hq & Hl & _)].
  { by rewrite lookup_empty in Hempty. }
  assert (p = prefix) as ->.
  { destruct (decide (p = prefix)) as [|Hne]; [done|].
    by destruct (possible_prefixes_distinct prefix p Hp Hp' Hne) as (_ & _ & ?). }
  destruct Hnone; congruence.
Qed.

(** C5, as stated, fails in the direction "list without query": the
    validators accept a body that holds a candidate list for a category
    with no query for it, and the match is performed; and the dispatcher
    that the socket session calls directly rejects nothing, it skips a
    query that comes without its list. *)
Lemma list_without_query_accepted :
  attr (cell_type_list unpaired_list_request) = Some ["HEK293T"]
  ∧ attr (cell_type_requested unpaired_list_request) = None
  ∧ validate unpaired_list_request = None
  ∧ perform_match (pick "Homo sapiens") 2 unpaired_list_request fresh
    = (Done (OK {[ "species_actual" := Some "Homo sapiens";
                   "matcher_version" := Some "2.0" ]}),
       World tt [Prompt (VStr "human") ["Homo sapiens"; "Mus musculus"] "species_actual"])
  ∧ process_request_with_chunking (pick "HEK293T") 0
      {[ "cell_type_requested" := VStr "hek-293" ]} default_chunk_size fresh
    = (Done {[ "matcher_version" := Some "2.0" ]}, fresh).
Proof. split_and!; vm_compute; reflexivity. Qed.

(** C5, amended.  In the REST front end a body that gives a category's
    query (not null) without a non-empty candidate list is rejected by the
    validation, before the engine runs and with no oracle call.  A
    candidate list without its query is not a reason for rejection; in the
    dispatcher an entry without its partner is passed over and leaves no
    result key. *)
Theorem query_without_list_rejected {St : Type}
    (invoke : St → template → prompt → llm_reply * St) (fuel : nat)
    (r : MatcherRequest) (w : @world St) :
  is_not_None (attr (cell_type_requested r)) && not_list (attr (cell_type_list r))
  || is_not_None (attr (species_requested r)) && not_list (attr (species_list r))
  || is_not_None (attr (binding_molecule_requested r))
     && not_list (attr (binding_molecule_list r)) = true →
  (∃ detail, check_paired_fields r = Some detail
             ∧ perform_match invoke fuel r w = (Done (Unprocessable detail), w))
  ∧ (∀ K request_data (w0 : @world St) response_data w' prefix,
       process_request_with_chunking invoke fuel request_data K w0
       = (Done response_data, w') →
       prefix ∈ possible_prefixes →
       request_data !! (prefix +:+ "_requested") = None
       ∨ request_data !! (prefix +:+ "_list") = None →
       response_data !! (prefix +:+ "_actual") = None).
Proof.
  intros Hbad. split.
  - assert (∃ detail, check_paired_fields r = Some detail) as [detail Hdetail].
    { unfold check_paired_fields.
      destruct (is_not_None (attr (cell_type_requested r))
                && not_list (attr (cell_type_list r))); [by eexists|].
      destruct (is_not_None (attr (species_requested r))
                && not_list (attr (species_list r))); [by eexists|].
      simpl in Hbad. rewrite Hbad. by eexists. }
    exists detail. split; [done|]. apply perform_match_rejected.
    unfold validate. by rewrite Hdetail.
  - intros K request_data w0 response_data w' prefix. apply unpaired_key_ignored.
Qed.

Lemma query_without_list_rejected_witness :
  ∃ detail,
    check_paired_fields
      {| cell_type_requested := Some (Some "hek-293"); cell_type_list := None;
         species_requested := Some (Some "human");
         species_list := Some (Some ["Homo sapiens"]);
         binding_molecule_requested := None; binding_molecule_list := None |}
    = Some detail
    ∧ perform_match echo_first 1
        {| cell_type_requested := Some (Some "hek-293"); cell_type_list := None;
           species_requested := Some (Some "human");
           species_list := Some (Some ["Homo sapiens"]);
           binding_molecule_requested := None; binding_molecule_list := None |} fresh
      = (Done (Unprocessable detail), fresh).
Proof.
  refine (proj1 (query_without_list_rejected echo_first 1
    {| cell_type_requested := Some (Some "hek-293"); cell_type_list := None;
       species_requested := Some (Some "human");
       species_list := Some (Some ["Homo sapiens"]);
       binding_molecule_requested := None; binding_molecule_list := None |} fresh _)).
  reflexivity.
Defined.

(** C6, as stated, fails on the socket path: the session hands the decoded
    document to the dispatcher without any validation, and a document with
    no category pair is answered with a response frame that carries the
    version-only result. *)
Lemma socket_answers_empty_document :
  handle_client echo_first whole_packets decode_stub encode_stub 2
    (Conn ([x00; x00; x00; x02] ++ empty_document) false None [] 0) fresh
  = (Done tt, Conn [] false None ([x00; x00; x00; x1a] ++ version_only_bytes) 1, fresh)
  ∧ decode_stub empty_document = Some ∅.
Proof. split; vm_compute; reflexivity. Qed.

(** C6, amended.  In the REST front end a body in which no category query
    is present (each [_requested] field unset, null or empty) is rejected
    by the validation, before the engine runs and with no oracle call.  The
    dispatcher itself, which the socket session calls without validation,
    does not reject a document without category pairs: it returns the
    version-only result, also with no oracle call. *)
Theorem request_without_query_rejected {St : Type}
    (invoke : St → template → prompt → llm_reply * St) (fuel : nat)
    (r : MatcherRequest) (w : @world St) :
  truthy_str (attr (cell_type_requested r)) || truthy_str (attr (species_requested r))
  || truthy_str (attr (binding_molecule_requested r)) = false →
  (∃ detail, validate r = Some detail
             ∧ perform_match invoke fuel r w = (Done (Unprocessable detail), w))
  ∧ (∀ K request_data (w0 : @world St),
       (∀ prefix, prefix ∈ possible_prefixes →
          request_data !! (prefix +:+ "_requested") = None
          ∨ request_data !! (prefix +:+ "_list") = None) →
       process_request_with_chunking invoke fuel request_data K w0
       = (Done {[ "matcher_version" := Some "2.0" ]}, w0)).
Proof.
  intros Hnone. split.
  - assert (∃ detail, validate r = Some detail) as [detail Hdetail].
    { unfold validate. destruct (check_paired_fields r); [by eexists|].
      unfold check_at_least_one_pair. rewrite Hnone. by eexists. }
    exists detail. split; [done|]. by apply perform_match_rejected.
  - intros K request_data w0 Hpairs. unfold process_request_with_chunking.
    by rewrite process_prefixes_none.
Qed.

Lemma request_without_query_rejected_witness :
  ∃ detail,
    validate
      {| cell_type_requested := None; cell_type_list := Some (Some ["HEK293T"]);
         species_requested := Some (Some ""); species_list := Some (Some ["Homo sapiens"]);
         binding_molecule_requested := Some None; binding_molecule_list := None |}
    = Some detail
    ∧ perform_match echo_first 1
        {| cell_type_requested := None; cell_type_list := Some (Some ["HEK293T"]);
           species_requested := Some (Some ""); species_list := Some (Some ["Homo sapiens"]);
           binding_molecule_requested := Some None; binding_molecule_list := None |} fresh
      = (Done (Unprocessable detail), fresh).
Proof.
  refine (proj1 (request_without_query_rejected echo_first 1
    {| cell_type_requested := None; cell_type_list := Some (Some ["HEK293T"]);
       species_requested := Some (Some ""); species_list := Some (Some ["Homo sapiens"]);
       binding_molecule_requested := Some None; binding_molecule_list := None |} fresh _)).
  reflexivity.
Defined.

(** ** The socket session *)

Section SessionFacts.
Context {St : Type}.
Variable invoke : St → template → prompt → llm_reply * St.
Variable arrive : nat → nat → nat.
Variable decode_payload : list byte → option (gmap string value).
Variable encode_response : gmap string (option string) → list byte.
Implicit Types (c : conn) (w : @world St).

Lemma same_line_refl c : same_line c c.
Proof. by unfold same_line. Qed.

Lemma same_line_trans c1 c2 c3 : same_line c1 c2 → same_line c2 c3 → same_line c1 c3.
Proof. unfold same_line. intros (?&?&?&?&?) (?&?&?&?&?). split_and!; congruence || lia. Qed.

Lemma consume_same_line (n : nat) c : same_line c (consume n c).
Proof. unfold same_line, consume. simpl. rewrite length_drop. split_and!; done || lia. Qed.

Lemma recv_spec (n : nat) c (r : outcome (list byte)) c' :
  recv arrive n c = (r, c') →
  same_line c c'
  ∧ match r with
    | Done packet =>
        length packet + length (inbox c') = length (inbox c)
        ∧ (length packet = 0 → inbox c = [] ∧ reset c = false)
    | Raised e => e = ConnectionResetError ∧ inbox c = [] ∧ reset c = true
    | OutOfFuel => False
    end.
Proof.
  unfold recv. destruct (inbox c) as [|b rest] eqn:Hin.
  - destruct (reset c) eqn:Hr; intros [= <- <-]; (split; [apply same_line_refl|]).
    + done.
    + by rewrite Hin.
  - intros [= <- <-]. split.
    + apply consume_same_line.
    + unfold consume. simpl inbox. rewrite Hin, length_take, length_drop. simpl. lia.
Qed.

Lemma recv_payload_unfold (fuel : nat) (msglen : Z) (data_recv : list byte) c :
  recv_payload arrive fuel msglen data_recv c =
  if bool_decide (Z.of_nat (length data_recv) < msglen)%Z then
    match fuel with
    | O => (OutOfFuel, c)
    | S fuel' =>
        match recv arrive
                (Z.to_nat (Z.min BUFFER_SIZE (msglen - Z.of_nat (length data_recv)))) c with
        | (Done packet, c') =>
            if bool_decide (length packet = 0) then (Raised ConnectionError, c')
            else recv_payload arrive fuel' msglen (data_recv ++ packet) c'
        | other => other
        end
    end
  else (Done data_recv, c).
Proof. by destruct fuel. Qed.

(** The payload loop ends once the stream is exhausted, whatever the
    segmentation: it returns the payload or raises. *)
Lemma recv_payload_spec (fuel : nat) (msglen : Z) (data_recv : list byte) c
    (r : outcome (list byte)) c' :
  length (inbox c) < fuel →
  recv_payload arrive fuel msglen data_recv c = (r, c') →
  same_line c c'
  ∧ match r with
    | Done data => True
    | Raised e => is_Exception e = true
    | OutOfFuel => False
    end.
Proof.
  revert data_recv c. induction fuel as [|fuel IH]; intros data c Hfuel; [lia|].
  rewrite recv_payload_unfold. case_bool_decide as Hmore.
  - destruct (recv arrive _ c) as [[packet|e|] c1] eqn:Hrecv;
      apply recv_spec in Hrecv as [Hline Hres]; try done.
    + case_bool_decide as Hempty.
      * intros [= <- <-]. done.
      * intros Hrec. destruct Hres as [Hlen _].
        apply IH in Hrec as [Hline' Hres']; [|lia].
        split; [by eapply same_line_trans|done].
    + intros [= <- <-]. destruct Hres as (-> & _). done.
  - intros [= <- <-]. split; [apply same_line_refl|done].
Qed.

(** A stream that ends before the announced length is reached makes the
    loop raise. *)
Lemma recv_payload_short (fuel : nat) (msglen : Z) (data_recv : list byte) c :
  length (inbox c) < fuel →
  (Z.of_nat (length data_recv + length (inbox c)) < msglen)%Z →
  ∃ e c', recv_payload arrive fuel msglen data_recv c = (Raised e, c')
          ∧ is_Exception e = true ∧ same_line c c'.
Proof.
  revert data_recv c. induction fuel as [|fuel IH]; intros data c Hfuel Hshort; [lia|].
  rewrite recv_payload_unfold. rewrite bool_decide_eq_true_2 by lia.
  destruct (recv arrive _ c) as [[packet|e|] c1] eqn:Hrecv;
    apply recv_spec in Hrecv as [Hline Hres]; try done.
  - destruct Hres as [Hlen _]. case_bool_decide as Hempty.
    + by eexists _, _.
    + destruct (IH (data ++ packet) c1) as (e & c' & -> & He & Hline'); [lia| |].
      * rewrite length_app. lia.
      * eexists _, _. split_and!; [done..|]. by eapply same_line_trans.
  - destruct Hres as (-> & _). by eexists _, _.
Qed.

Lemma recv_waitall_spec (n : nat) c (r : outcome (list byte)) c' :
  recv_waitall n c = (r, c') →
  same_line c c'
  ∧ match r with
    | Done data =>
        (length data = n ∧ length (inbox c') + n = length (inbox c) ∧ data = take n (inbox c))
        ∨ (length data < n ∧ data = inbox c ∧ reset c = false)
    | Raised e => is_Exception e = true
    | OutOfFuel => False
    end.
Proof.
  unfold recv_waitall. case_bool_decide as Hlen.
  - intros [= <- <-]. split; [apply consume_same_line|]. left.
    unfold consume. simpl. rewrite length_take, length_drop. split_and!; done || lia.
  - destruct (reset c) eqn:Hr; intros [= <- <-]; (split; [apply consume_same_line|]).
    + done.
    + right. split_and!; done || lia.
Qed.

Lemma sendall_spec (data : list byte) c (r : outcome unit) c' :
  sendall data c = (r, c') →
  closed c' = closed c ∧ inbox c' = inbox c
  ∧ match r with
    | Done _ => sent c' = sent c ++ data
    | Raised e =>
        is_Exception e = true
        ∧ ∃ k, room c = Some k ∧ k < length data ∧ sent c' = sent c ++ take k data
    | OutOfFuel => False
    end.
Proof.
  unfold sendall. destruct (room c) as [k|]; [case_bool_decide|]; intros [= <- <-];
    simpl; split_and!; try done.
  exists k. split_and!; [done|lia|done].
Qed.

Lemma unpack_be32_length (b : list byte) (n : Z) : unpack_be32 b = Some n → length b = 4.
Proof. by destruct b as [|? [|? [|? [|? [|? ?]]]]]. Qed.

(** *** The body of the [try] *)

Lemma serve_request_spec c w (r : outcome bool) c' w' :
  serve_request invoke arrive decode_payload encode_response c w = (r, c', w') →
  closed c' = closed c
  ∧ match r with
    | Done true => length (inbox c') + 4 ≤ length (inbox c)
    | Done false => sent c' = sent c ∧ w' = w
    | Raised e => is_Exception e = true
    | OutOfFuel => False
    end.
Proof.
  unfold serve_request.
  destruct (recv_waitall 4 c) as [[header|e|] c1] eqn:Hhead;
    apply recv_waitall_spec in Hhead as [(Hs1 & Hc1 & _ & _ & Hl1) Hres1]; try done.
  2: { by intros [= <- <- <-]. }
  case_bool_decide as Hempty.
  { by intros [= <- <- <-]. }
  destruct (unpack_be32 header) as [msglen|] eqn:Hunpack.
  2: { by intros [= <- <- <-]. }
  apply unpack_be32_length in Hunpack.
  destruct Hres1 as [(_ & Hfour & _)|(? & _)]; [|lia].
  destruct (recv_payload arrive (S (length (inbox c1))) msglen [] c1)
    as [[data|e|] c2] eqn:Hpay;
    apply recv_payload_spec in Hpay as [(Hs2 & Hc2 & _ & _ & Hl2) Hres2]; try lia; try done.
  2: { intros [= <- <- <-]. split; [congruence|done]. }
  case_bool_decide as Hcomplete; simpl.
  2: { intros [= <- <- <-]. split_and!; congruence. }
  destruct (decode_payload data) as [request_data|].
  2: { intros [= <- <- <-]. split_and!; congruence. }
  destruct (process_request_with_chunking invoke (request_fuel request_data) request_data
              default_chunk_size w) as [[response_data|e|] w1] eqn:Hrun.
  2: { intros [= <- <- <-]. split; [congruence|].
       by apply process_request_raises in Hrun as [[-> _]|[-> _]]. }
  2: { destruct (lists_iterable request_data) eqn:Hiter.
       - destruct (process_request_total invoke (request_fuel request_data)
                     default_chunk_size request_data w) as (? & ? & ? & _);
           [unfold default_chunk_size; lia|done..|congruence].
       - destruct (process_request_type_error invoke (request_fuel request_data)
                     default_chunk_size request_data w) as (? & ?);
           [unfold default_chunk_size; lia|done..|congruence]. }
  destruct (pack_be32 _) as [bytes|].
  2: { intros [= <- <- <-]. split; [congruence|done]. }
  destruct (sendall bytes c2) as [[[]|e|] c3] eqn:Hsend1;
    apply sendall_spec in Hsend1 as (Hc3 & Hi3 & Hres3); try done.
  2: { intros [= <- <- <-]. split; [congruence|by destruct Hres3]. }
  destruct (sendall (encode_response response_data) c3) as [[[]|e|] c4] eqn:Hsend2;
    apply sendall_spec in Hsend2 as (Hc4 & Hi4 & Hres4); try done.
  - intros [= <- <- <-]. split; [congruence|]. rewrite Hi4, Hi3. lia.
  - intros [= <- <- <-]. split; [congruence|by destruct Hres4].
Qed.

(** The stream ends inside the payload: the body raises before anything
    is decoded, matched or sent. *)
Lemma serve_request_short c w (header payload : list byte) (msglen : Z) :
  inbox c = header ++ payload →
  unpack_be32 header = Some msglen →
  (Z.of_nat (length payload) < msglen)%Z →
  ∃ e c', serve_request invoke arrive decode_payload encode_response c w = (Raised e, c', w)
          ∧ is_Exception e = true ∧ sent c' = sent c ∧ closed c' = closed c.
Proof.
  intros Hin Hunpack Hshort. pose proof (unpack_be32_length _ _ Hunpack) as Hlen.
  unfold serve_request, recv_waitall.
  rewrite bool_decide_eq_true_2 by (rewrite Hin, length_app; lia).
  assert (take 4 (inbox c) = header) as ->.
  { rewrite Hin, <- Hlen. by rewrite take_app_length. }
  rewrite bool_decide_eq_false_2 by lia. rewrite Hunpack.
  destruct (recv_payload_short (S (length (inbox (consume 4 c)))) msglen []
              (consume 4 c)) as (e & c' & -> & He & Hs & Hc & _); [lia| |].
  - unfold consume. simpl. rewrite Hin, <- Hlen, drop_app_length. lia.
  - exists e, c'. split_and!; done.
Qed.

(** *** One pass of the loop, and the loop *)

Lemma iteration_spec c w (r : outcome bool) c' w' :
  iteration invoke arrive decode_payload encode_response c w = (r, c', w') →
  (r = Done true ∧ closed c' = closed c ∧ length (inbox c') + 4 ≤ length (inbox c))
  ∨ (r = Done false ∧ closed c' = S (closed c)).
Proof.
  unfold iteration.
  destruct (serve_request invoke arrive decode_payload encode_response c w)
    as [[[[|]|e|] c1] w1] eqn:Hbody;
    apply serve_request_spec in Hbody as [Hclosed Hres]; try done.
  - intros [= <- <- <-]. left. done.
  - intros [= <- <- <-]. right. simpl. by rewrite Hclosed.
  - rewrite Hres. intros [= <- <- <-]. right. simpl. by rewrite Hclosed.
Qed.

(** Every session ends, and ends with the connection closed exactly once
    more than it was: each pass that goes on has taken a whole frame from
    a finite stream. *)
Lemma handle_client_total (fuel : nat) c w :
  length (inbox c) < fuel →
  ∃ c' w', handle_client invoke arrive decode_payload encode_response fuel c w
           = (Done tt, c', w')
           ∧ closed c' = S (closed c).
Proof.
  revert c w. induction fuel as [|fuel IH]; intros c w Hfuel; [lia|]. simpl.
  destruct (iteration invoke arrive decode_payload encode_response c w)
    as [[r c1] w1] eqn:Hiter.
  apply iteration_spec in Hiter as [(-> & Hclosed & Hlen)|(-> & Hclosed)].
  - destruct (IH c1 w1) as (c' & w' & -> & Hclosed'); [lia|].
    exists c', w'. split; [done|congruence].
  - by exists c1, w1.
Qed.
End SessionFacts.

(** C8.  The peer ends the stream after a length prefix announcing [N]
    bytes and fewer than [N] payload bytes: whatever the segmentation, the
    first pass of the session raises, the session stops there (it does not
    wait for more), nothing is decoded, no oracle is called, no response
    frame is written, and the connection is closed exactly once.  And on
    every stream, whichever way the session ends, it ends with exactly one
    call of [close]. *)
Theorem short_payload_closes_once {St : Type}
    (invoke : St → template → prompt → llm_reply * St) (arrive : nat → nat → nat)
    (decode_payload : list byte → option (gmap string value))
    (encode_response : gmap string (option string) → list byte)
    (c : conn) (w : @world St) (header payload : list byte) (N : Z) :
  inbox c = header ++ payload →
  unpack_be32 header = Some N →
  (Z.of_nat (length payload) < N)%Z →
  (∀ fuel, ∃ c',
     handle_client invoke arrive decode_payload encode_response (S fuel) c w
     = (Done tt, c', w)
     ∧ closed c' = S (closed c) ∧ sent c' = sent c)
  ∧ (∀ fuel c0 (w0 : @world St), length (inbox c0) < fuel →
     ∃ c' w', handle_client invoke arrive decode_payload encode_response fuel c0 w0
              = (Done tt, c', w')
              ∧ closed c' = S (closed c0)).
Proof.
  intros Hin Hunpack Hshort. split.
  - intros fuel.
    destruct (serve_request_short invoke arrive decode_payload encode_response c w
                header payload N Hin Hunpack Hshort) as (e & c' & Hbody & He & Hsent & Hclosed).
    exists (close c'). simpl. unfold iteration. rewrite Hbody, He. simpl.
    split_and!; [done|by rewrite Hclosed|done].
  - intros fuel c0 w0 Hfuel. by apply handle_client_total.
Qed.

Lemma short_payload_closes_once_witness :
  ∃ c', handle_client echo_first single_bytes decode_stub encode_stub 1
          (Conn [x00; x00; x00; x0a; x68; x65; x6c; x6c; x6f] false None [] 0) fresh
        = (Done tt, c', fresh)
        ∧ closed c' = 1 ∧ sent c' = [].
Proof.
  refine (proj1 (short_payload_closes_once echo_first single_bytes decode_stub encode_stub
    (Conn [x00; x00; x00; x0a; x68; x65; x6c; x6c; x6f] false None [] 0) fresh
    [x00; x00; x00; x0a] [x68; x65; x6c; x6c; x6f] 10 _ _ _) 0).
  - reflexivity.
  - reflexivity.
  - simpl. lia.
Defined.

(** * Further properties of the engine *)

Lemma make_chunks_nonempty (l : list string) (K : Z) (chunks : list (list string))
    (chunk : list string) :
  (0 < K)%Z → make_chunks l K = Some chunks → chunk ∈ chunks → 1 ≤ length chunk.
Proof.
  intros HK Hch Hin.
  rewrite make_chunks_pos in Hch by done. injection Hch as <-.
  apply list_elem_of_In, in_map_iff in Hin as (i & <- & Hi).
  apply in_map_iff in Hi as (j & <- & Hj). apply in_seq in Hj as [_ Hj]. simpl in Hj.
  unfold slice. rewrite length_take, length_drop.
  assert (j * Z.to_nat K < length l); [|lia].
  unfold ceil_div in Hj.
  assert (Z.to_nat K ≠ 0) as Hk0 by lia.
  pose proof (Nat.div_mod_eq (length l + Z.to_nat K - 1) (Z.to_nat K)) as Hdm.
  pose proof (Nat.mod_upper_bound (length l + Z.to_nat K - 1) (Z.to_nat K) Hk0) as Hlt.
  nia.
Qed.

(** X1.  For a positive chunk size the chunks are a partition of the list
    into consecutive pieces: put end to end they are the list again, there
    are [ceil(len/K)] of them, none is empty and none holds more than [K]
    candidates. *)
Theorem chunks_partition (l : list string) (K : Z) :
  (0 < K)%Z →
  ∃ chunks, make_chunks l K = Some chunks
    ∧ concat chunks = l
    ∧ length chunks = ceil_div (length l) (Z.to_nat K)
    ∧ Forall (λ chunk, 1 ≤ length chunk ∧ (Z.of_nat (length chunk) ≤ K)%Z) chunks.
Proof.
  intros HK. destruct (make_chunks l K) as [chunks|] eqn:Hch.
  2: { by rewrite make_chunks_pos in Hch. }
  exists chunks. split; [done|].
  split; [by eapply make_chunks_concat|].
  split; [by eapply make_chunks_length|].
  apply Forall_forall. intros chunk Hin.
  split; [by eapply make_chunks_nonempty|by eapply make_chunks_bounded].
Qed.

Lemma chunks_partition_witness :
  ∃ chunks, make_chunks ["a"; "b"; "c"; "d"; "e"] 2 = Some chunks
    ∧ concat chunks = ["a"; "b"; "c"; "d"; "e"]
    ∧ length chunks = ceil_div (length ["a"; "b"; "c"; "d"; "e"]) (Z.to_nat 2)
    ∧ Forall (λ chunk, 1 ≤ length chunk ∧ (Z.of_nat (length chunk) ≤ 2)%Z) chunks.
Proof. apply (chunks_partition ["a"; "b"; "c"; "d"; "e"] 2). lia. Defined.

(** X3.  The set handed to the next round is sorted, holds every champion
    once, and is the same whatever the order and the multiplicity in which
    the chunks delivered the champions. *)
Theorem next_round_set_is_canonical (champions : list string) :
  StronglySorted String.le (sorted_set champions)
  ∧ NoDup (sorted_set champions)
  ∧ (∀ x, x ∈ sorted_set champions ↔ x ∈ champions)
  ∧ (∀ other, (∀ x, x ∈ champions ↔ x ∈ other) → sorted_set other = sorted_set champions)
  ∧ sorted_set (sorted_set champions) = sorted_set champions.
Proof.
  split_and!.
  - apply sorted_set_sorted.
  - apply sorted_set_NoDup.
  - apply sorted_set_elem.
  - intros other Hsame. apply sorted_set_canonical. intros x. by rewrite Hsame.
  - apply sorted_set_canonical. apply sorted_set_elem.
Qed.

Section EngineFacts.
Context {St : Type}.
Variable invoke : St → template → prompt → llm_reply * St.
Implicit Types (w : @world St) (chain : template) (q : value) (key : string)
  (request_data : gmap string value) (response_data : gmap string (option string)).

(** *** Chunk sizes that are not positive *)

Lemma championship_negative (fuel : nat) chain q key (K : Z) w :
  (K < 0)%Z → championship invoke fuel chain q key K [] w = (OutOfFuel, w).
Proof.
  intros HK. induction fuel as [|fuel IH]; rewrite championship_unfold;
    rewrite bool_decide_eq_true_2 by (simpl; lia); [done|].
  unfold play_round. rewrite make_chunks_neg by done. simpl.
  change (sorted_set []) with (@nil string). by rewrite IH.
Qed.

Lemma match_category_not_positive (fuel : nat) (K : Z) (prefix : string) q
    (choices : list string) w :
  (K ≤ 0)%Z → prefix ∈ possible_prefixes →
  match_category invoke fuel K prefix q choices w
  = (if bool_decide (K = 0)%Z then Raised ValueError else OutOfFuel, w).
Proof.
  intros HK [chain Hchain]%get_chain_from_prefix_known.
  unfold match_category, run_rounds. rewrite Hchain. case_bool_decide as Hz.
  - subst K. by rewrite play_round_zero.
  - unfold play_round. rewrite make_chunks_neg by lia. simpl.
    change (sorted_set []) with (@nil string).
    by rewrite championship_negative by lia.
Qed.

Lemma process_prefixes_not_positive (fuel : nat) (K : Z) request_data
    (prefixes : list string) response_data w :
  (K ≤ 0)%Z →
  (∀ prefix, prefix ∈ prefixes →
     prefix ∈ possible_prefixes ∧ list_ok request_data prefix = true) →
  (∃ prefix q choices, prefix ∈ prefixes
     ∧ request_data !! (prefix +:+ "_requested") = Some q
     ∧ request_data !! (prefix +:+ "_list") = Some choices
     ∧ falsy q || falsy choices = false) →
  process_prefixes invoke fuel K request_data prefixes response_data w
  = (if bool_decide (K = 0)%Z then Raised ValueError else OutOfFuel, w).
Proof.
  intros HK. revert response_data.
  induction prefixes as [|prefix rest IH]; intros resp Hknown Hpair.
  { destruct Hpair as (? & ? & ? & Hin & _). by apply elem_of_nil in Hin. }
  assert (∀ resp', (∃ p q choices, p ∈ rest
             ∧ request_data !! (p +:+ "_requested") = Some q
             ∧ request_data !! (p +:+ "_list") = Some choices
             ∧ falsy q || falsy choices = false) →
           process_prefixes invoke fuel K request_data rest resp' w
           = (if bool_decide (K = 0)%Z then Raised ValueError else OutOfFuel, w)) as Hrest.
  { intros resp' Hp. apply IH; [|done]. intros p Hp'. apply Hknown.
    by apply list_elem_of_further. }
  destruct (Hknown prefix) as [Hhead Hiter]; [apply list_elem_of_here|].
  unfold list_ok in Hiter.
  destruct Hpair as (p & q & choices & Hin & Hq & Hl & Hfalsy).
  simpl. apply elem_of_cons in Hin as [->|Hin].
  - rewrite Hq, Hl, Hfalsy in Hiter |- *. simpl in Hiter. rewrite Hiter. simpl.
    rewrite match_category_not_positive by done. by case_bool_decide.
  - assert (∃ p q choices, p ∈ rest
             ∧ request_data !! (p +:+ "_requested") = Some q
             ∧ request_data !! (p +:+ "_list") = Some choices
             ∧ falsy q || falsy choices = false) as Hlater by eauto 10.
    destruct (request_data !! (prefix +:+ "_requested")) as [q0|]; [|by apply Hrest].
    destruct (request_data !! (prefix +:+ "_list")) as [c0|]; [|by apply Hrest].
    destruct (falsy q0 || falsy c0); [by apply Hrest|].
    simpl in Hiter. rewrite Hiter. simpl.
    rewrite match_category_not_positive by done. by case_bool_decide.
Qed.

End EngineFacts.

(** X2.  A chunk size that is not positive never yields an answer for a
    request that holds a non-empty pair (its candidate lists being lists,
    strings or objects, which line 215 can iterate): with
    [list_chunk_size = 0] the engine raises [ValueError] (the zero step of
    [range]), with a negative one its championship loop never ends; in
    both cases no oracle call is made. *)
Theorem bad_chunk_size_never_answers {St : Type}
    (invoke : St → template → prompt → llm_reply * St) (fuel : nat) (K : Z)
    (request_data : gmap string value) (w : @world St) (prefix : string)
    (q choices : value) :
  (K ≤ 0)%Z → prefix ∈ possible_prefixes →
  request_data !! (prefix +:+ "_requested") = Some q →
  request_data !! (prefix +:+ "_list") = Some choices →
  falsy q || falsy choices = false →
  lists_iterable request_data = true →
  process_request_with_chunking invoke fuel request_data K w
  = (if bool_decide (K = 0)%Z then Raised ValueError else OutOfFuel, w).
Proof.
  intros HK Hp Hq Hl Hfalsy Hiter. unfold process_request_with_chunking.
  rewrite process_prefixes_not_positive; [by case_bool_decide|done| |].
  - intros p Hp'. split; [done|]. by apply lists_iterable_elem.
  - by exists prefix, q, choices.
Qed.

Lemma bad_chunk_size_never_answers_witness :
  process_request_with_chunking echo_first 7 hek_request (-3) fresh
  = (if bool_decide ((-3)%Z = 0%Z) then Raised ValueError else OutOfFuel, fresh).
Proof.
  refine (bad_chunk_size_never_answers echo_first 7 (-3) hek_request fresh "cell_type"
            (VStr "hek-293") (VList hek_choices) _ _ _ _ _ _).
  - lia.
  - unfold possible_prefixes. apply list_elem_of_here.
  - vm_compute. reflexivity.
  - vm_compute. reflexivity.
  - reflexivity.
  - reflexivity.
Defined.



(** ** What the oracle is asked *)

Lemma tournament_prompt_weaken (q : value) (key : string) (K : Z)
    (smaller larger : list string) (p : prompt) :
  smaller ⊆ larger → tournament_prompt q key K smaller p → tournament_prompt q key K larger p.
Proof.
  intros Hsub (? & ? & ? & ? & ?). split_and!; try done. by etrans.
Qed.

Section PromptFacts.
Context {St : Type}.
Variable invoke : St → template → prompt → llm_reply * St.
Implicit Types (w : @world St) (chain : template) (q : value) (key : string).

Lemma play_round_prompts chain q key (K : Z) (candidates next : list string) w w' :
  (0 < K)%Z →
  play_round invoke chain q key K candidates w = (Done next, w') →
  ∃ new, calls w' = calls w ++ new
         ∧ Forall (tournament_prompt q key K candidates) new.
Proof.
  intros HK (chunks & Hch & _ & _ & _ & _ & Hcalls)%play_round_inv.
  eexists. split; [done|].
  apply Forall_forall. intros p Hp.
  apply list_elem_of_In, in_map_iff in Hp as (chunk & <- & Hin%list_elem_of_In).
  split_and!; try done.
  - by eapply make_chunks_nonempty.
  - by eapply make_chunks_bounded.
  - by eapply make_chunks_subseteq.
Qed.

Lemma championship_prompts (fuel : nat) chain q key (K : Z) (unique_champions : list string)
    w (f : finish) w' :
  championship invoke fuel chain q key K unique_champions w = (Done f, w') →
  ∃ new, calls w' = calls w ++ new
         ∧ Forall (tournament_prompt q key K unique_champions) new.
Proof.
  revert unique_champions w f w'.
  induction fuel as [|fuel IH]; intros uc w f w'; rewrite championship_unfold;
    case_bool_decide as Hgt; try done.
  - intros [= <- <-]. exists []. by rewrite app_nil_r.
  - destruct (play_round invoke chain q key K uc w) as [[next| |] w1] eqn:Hround; try done.
    destruct (championship invoke fuel chain q key K next w1) as [[f1| |] w2] eqn:Hrec;
      try done.
    intros [= <- <-].
    pose proof (championship_done_nonneg invoke _ _ _ _ _ _ _ _ _ Hrec) as Hnn.
    assert (0 < K)%Z as HK.
    { destruct (decide (K = 0%Z)) as [->|]; [done|lia]. }
    pose proof Hround as (_ & _ & Hsub & _)%play_round_inv.
    apply play_round_prompts in Hround as (new1 & Hc1 & Hall1); [|done].
    apply IH in Hrec as (new2 & Hc2 & Hall2).
    exists (new1 ++ new2). split; [by rewrite Hc2, Hc1, app_assoc|].
    apply Forall_app. split; [done|].
    eapply Forall_impl; [done|]. intros p. by apply tournament_prompt_weaken.
  - intros [= <- <-]. exists []. by rewrite app_nil_r.
Qed.
End PromptFacts.

Lemma sorted_set_nil : sorted_set [] = [].
Proof. done. Qed.

Lemma sorted_set_singleton (t : string) : sorted_set [t] = [t].
Proof. done. Qed.

Lemma sorted_set_only (t : string) (l : list string) :
  t ∈ l → (∀ x, x ∈ l → x = t) → sorted_set l = [t].
Proof.
  intros Hin Hall. rewrite <- (sorted_set_singleton t). apply sorted_set_canonical.
  intros x. rewrite list_elem_of_singleton. split; [apply Hall|by intros ->].
Qed.


Section OracleFacts.
Context {St : Type}.
Variable invoke : St → template → prompt → llm_reply * St.
Implicit Types (w : @world St) (chain : template) (q : value) (key : string).

Lemma match_category_positive (fuel : nat) (K : Z) (prefix : string) q
    (choices : list string) w (final_answer : string) (f : finish) w' :
  match_category invoke fuel K prefix q choices w = (Done (final_answer, f), w') →
  (0 < K)%Z.
Proof.
  intros (chain & w2 & Hrun & _)%match_category_inv.
  apply run_rounds_inv in Hrun as (_ & first & w1 & Hround & Hloop).
  apply championship_done_nonneg in Hloop.
  apply play_round_inv in Hround as (chunks & Hch & _).
  destruct (decide (K = 0%Z)) as [->|]; [done|lia].
Qed.


Lemma run_chunks_silent chain q key (chunks : list (list string)) (acc : list string) w :
  silent invoke → (run_chunks invoke chain q key chunks acc w).1 = acc.
Proof.
  intros Hsilent. revert acc w.
  induction chunks as [|chunk rest IH]; intros acc w; simpl; [done|].
  pose proof (ask_reply invoke chain (Prompt q chunk key) w) as [Hr _].
  destruct (ask invoke chain (Prompt q chunk key) w) as [r w1]. simpl in Hr. subst r.
  pose proof (Hsilent (llm w) chain (Prompt q chunk key)) as Hnone. simpl in Hnone.
  rewrite Hnone. apply IH.
Qed.



End OracleFacts.

(** X5.  Every prompt of a tournament that returns carries the query and
    the [_actual] key of its category, and offers between one and
    [list_chunk_size] candidates, all taken from the candidate list of the
    request: the oracle is never asked with an empty list, nor with more
    than a chunk. *)
Theorem every_prompt_is_bounded {St : Type}
    (invoke : St → template → prompt → llm_reply * St) (fuel : nat) (K : Z)
    (prefix : string) (q : value) (choices : list string) (w : @world St)
    (final_answer : string) (f : finish) (w' : @world St) :
  match_category invoke fuel K prefix q choices w = (Done (final_answer, f), w') →
  ∃ new, calls w' = calls w ++ new
         ∧ Forall (tournament_prompt q (prefix +:+ "_actual") K choices) new.
Proof.
  intros Hcat. pose proof (match_category_positive invoke _ _ _ _ _ _ _ _ _ Hcat) as HK.
  apply match_category_inv in Hcat as (chain & w2 & Hrun & Hfinal).
  pose proof Hrun as (Hsub & _ & _ & _ & Hle)%run_rounds_finalists.
  apply run_rounds_inv in Hrun as (_ & first & w1 & Hround & Hloop).
  pose proof Hround as (_ & _ & Hsub1 & _)%play_round_inv.
  apply play_round_prompts in Hround as (new1 & Hc1 & Hall1); [|done].
  apply championship_prompts in Hloop as (new2 & Hc2 & Hall2).
  assert (Forall (tournament_prompt q (prefix +:+ "_actual") K choices) (new1 ++ new2))
    as Hrounds.
  { apply Forall_app. split; [done|]. eapply Forall_impl; [done|].
    intros p. by apply tournament_prompt_weaken. }
  destruct (decide (2 ≤ length (finalists f))) as [Htwo|Hfew].
  - rewrite final_decision_two in Hfinal by done. injection Hfinal as _ <-.
    exists ((new1 ++ new2) ++ [Prompt q (finalists f) (prefix +:+ "_actual")]).
    split; [by rewrite ask_calls, Hc2, Hc1, !app_assoc|].
    apply Forall_app. split; [done|]. apply Forall_singleton.
    split_and!; simpl; try done. lia.
  - exists (new1 ++ new2). split; [|done].
    assert (w' = w2) as ->.
    { destruct (finalists f) as [|a [|b rest]]; simpl in *; try lia;
        by injection Hfinal as _ <-. }
    by rewrite Hc2, Hc1, app_assoc.
Qed.

Lemma every_prompt_is_bounded_witness :
  ∃ new, calls (World tt [hek_prompt]) = calls fresh ++ new
         ∧ Forall (tournament_prompt (VStr "hek-293") ("cell_type" +:+ "_actual") 20
                     hek_choices) new.
Proof.
  refine (every_prompt_is_bounded (pick "HEK293T") 0 20 "cell_type" (VStr "hek-293")
            hek_choices fresh "HEK293T" (Finish [] ["HEK293T"]) (World tt [hek_prompt]) _).
  vm_compute. reflexivity.
Defined.



(** X7.  When no call of the oracle yields a champion (it cannot be
    reached, answers with something that is not the expected JSON object,
    declines, or names values it was not offered), the category still gets
    an answer: "NULL", after exactly [ceil(M/K)] calls, one per chunk of
    round 0; nothing is raised. *)
Theorem silent_oracle_gives_null {St : Type}
    (invoke : St → template → prompt → llm_reply * St) (fuel : nat) (K : Z)
    (prefix : string) (q : value) (choices : list string) (w : @world St) :
  prefix ∈ possible_prefixes → (0 < K)%Z → silent invoke →
  ∃ w', match_category invoke fuel K prefix q choices w
        = (Done ("NULL", Finish [] []), w')
        ∧ length (calls w') = length (calls w) + ceil_div (length choices) (Z.to_nat K).
Proof.
  intros [chain Hchain]%get_chain_from_prefix_known HK Hsilent.
  unfold match_category, run_rounds, play_round. rewrite Hchain.
  destruct (make_chunks choices K) as [chunks|] eqn:Hch.
  2: { by rewrite make_chunks_pos in Hch. }
  pose proof (run_chunks_silent invoke chain q (prefix +:+ "_actual") chunks [] w Hsilent)
    as Hnone.
  pose proof (run_chunks_calls invoke chain q (prefix +:+ "_actual") chunks [] w) as Hcalls.
  destruct (run_chunks invoke chain q (prefix +:+ "_actual") chunks [] w)
    as [champions w1]. simpl in Hnone, Hcalls. subst champions.
  rewrite sorted_set_nil, championship_unfold.
  rewrite bool_decide_eq_false_2 by (simpl; lia). simpl.
  exists w1. split; [done|].
  rewrite Hcalls, length_app, length_map. f_equal. by eapply make_chunks_length.
Qed.

Lemma silent_oracle_gives_null_witness :
  ∃ w', match_category unreachable_oracle 0 20 "cell_type" (VStr "hek-293") hek_choices fresh
        = (Done ("NULL", Finish [] []), w')
        ∧ length (calls w')
          = length (calls fresh) + ceil_div (length hek_choices) (Z.to_nat 20).
Proof.
  refine (silent_oracle_gives_null unreachable_oracle 0 20 "cell_type" (VStr "hek-293")
            hek_choices fresh _ _ _).
  - unfold possible_prefixes. apply list_elem_of_here.
  - lia.
  - intros s chain p. reflexivity.
Defined.



(** ** The keys of the result *)

Section ResultFacts.
Context {St : Type}.
Variable invoke : St → template → prompt → llm_reply * St.
Implicit Types (w : @world St) (request_data : gmap string value)
  (response_data : gmap string (option string)).

Lemma process_prefixes_mono (fuel : nat) (K : Z) request_data (prefixes : list string)
    response_data w response_data' w' (key : string) :
  process_prefixes invoke fuel K request_data prefixes response_data w
    = (Done response_data', w') →
  is_Some (response_data !! key) → is_Some (response_data' !! key).
Proof.
  revert response_data w.
  induction prefixes as [|prefix rest IH]; intros resp w; simpl.
  { by intros [= <- <-]. }
  assert (∀ x, is_Some (resp !! key) → is_Some (<[prefix +:+ "_actual" := x]> resp !! key))
    as Hins.
  { intros x Hsome. apply lookup_insert_is_Some.
    destruct (decide (prefix +:+ "_actual" = key)); [by left|by right]. }
  repeat case_match; try done; intros Hrun Hsome; eapply IH; eauto.
Qed.

Lemma process_prefixes_writes (fuel : nat) (K : Z) request_data (prefixes : list string)
    response_data w response_data' w' (prefix : string) :
  process_prefixes invoke fuel K request_data prefixes response_data w
    = (Done response_data', w') →
  prefix ∈ prefixes →
  is_Some (request_data !! (prefix +:+ "_requested")) →
  is_Some (request_data !! (prefix +:+ "_list")) →
  is_Some (response_data' !! (prefix +:+ "_actual")).
Proof.
  intros Hrun Hin [q Hq] [choices Hl]. revert response_data w Hrun.
  induction prefixes as [|p rest IH]; intros resp w Hrun.
  { by apply elem_of_nil in Hin. }
  apply elem_of_cons in Hin as [<-|Hin].
  - simpl in Hrun. rewrite Hq, Hl in Hrun.
    destruct (falsy q || falsy choices).
    + eapply process_prefixes_mono; [done|]. by rewrite lookup_insert_eq.
    + destruct (iterable choices); simpl in Hrun; [|done].
      destruct (match_category invoke fuel K prefix q (as_choices choices) w)
        as [[[a f]| |] w1]; try done.
      eapply process_prefixes_mono; [done|]. by rewrite lookup_insert_eq.
  - simpl in Hrun. repeat case_match; try done; by eapply IH.
Qed.

Lemma process_request_entry (fuel : nat) (K : Z) request_data w response_data w'
    (prefix : string) (v : option string) :
  process_request_with_chunking invoke fuel request_data K w = (Done response_data, w') →
  prefix ∈ possible_prefixes →
  response_data !! (prefix +:+ "_actual") = Some v →
  recorded request_data prefix v.
Proof.
  intros Hrun Hp Hres. unfold process_request_with_chunking in Hrun.
  destruct (process_prefixes invoke fuel K request_data possible_prefixes ∅ w)
    as [[resp| |] w1] eqn:Hloop; try done.
  injection Hrun as <- <-.
  rewrite lookup_insert_ne in Hres by (symmetry; by apply possible_prefixes_not_version).
  destruct (process_prefixes_inv invoke _ _ _ _ _ _ _ _ _ _ Hloop Hres)
    as [Hempty|(p & Hp' & Hkey & Hrec)].
  { by rewrite lookup_empty in Hempty. }
  assert (p = prefix) as ->; [|done].
  destruct (decide (p = prefix)) as [|Hne]; [done|].
  by destruct (possible_prefixes_distinct prefix p Hp Hp' Hne) as (_ & _ & ?).
Qed.

Lemma process_request_written (fuel : nat) (K : Z) request_data w response_data w'
    (prefix : string) :
  process_request_with_chunking invoke fuel request_data K w = (Done response_data, w') →
  prefix ∈ possible_prefixes →
  is_Some (request_data !! (prefix +:+ "_requested")) →
  is_Some (request_data !! (prefix +:+ "_list")) →
  is_Some (response_data !! (prefix +:+ "_actual")).
Proof.
  intros Hrun Hp Hq Hl. unfold process_request_with_chunking in Hrun.
  destruct (process_prefixes invoke fuel K request_data possible_prefixes ∅ w)
    as [[resp| |] w1] eqn:Hloop; try done.
  injection Hrun as <- <-.
  rewrite lookup_insert_ne by (symmetry; by apply possible_prefixes_not_version).
  by eapply process_prefixes_writes.
Qed.

Lemma process_request_matched (fuel : nat) (K : Z) request_data w response_data w'
    (prefix : string) :
  process_request_with_chunking invoke fuel request_data K w = (Done response_data, w') →
  prefix ∈ possible_prefixes →
  (matched_pair request_data prefix ↔
   ∃ s, response_data !! (prefix +:+ "_actual") = Some (Some s)).
Proof.
  intros Hrun Hp. split.
  - intros (q & choices & Hq & Hl & Hfalsy).
    destruct (process_request_written _ _ _ _ _ _ prefix Hrun Hp) as [v Hv]; [by eexists..|].
    destruct (process_request_entry _ _ _ _ _ _ _ _ Hrun Hp Hv)
      as (q' & c' & Hq' & Hl' & [[Hf _]|(_ & s & -> & _)]); [|by eexists].
    congruence.
  - intros [s Hs].
    destruct (process_request_entry _ _ _ _ _ _ _ _ Hrun Hp Hs)
      as (q & c & Hq & Hl & [[_ ?]|(Hf & _)]); [done|].
    by exists q, c.
Qed.
End ResultFacts.

(** X9.  The result document holds [matcher_version] and, for each of the
    three categories, an [_actual] key exactly when the request holds both
    keys of the category; the entry is null exactly when the query or the
    candidate list is empty, and a string otherwise.  It holds no other
    key. *)
Theorem result_keys_follow_pairs {St : Type}
    (invoke : St → template → prompt → llm_reply * St) (fuel : nat) (K : Z)
    (request_data : gmap string value) (w : @world St)
    (response_data : gmap string (option string)) (w' : @world St) :
  process_request_with_chunking invoke fuel request_data K w = (Done response_data, w') →
  (∀ key, is_Some (response_data !! key) →
     key = "matcher_version"
     ∨ ∃ prefix, prefix ∈ possible_prefixes ∧ key = prefix +:+ "_actual")
  ∧ ∀ prefix, prefix ∈ possible_prefixes →
      (is_Some (response_data !! (prefix +:+ "_actual"))
       ↔ is_Some (request_data !! (prefix +:+ "_requested"))
         ∧ is_Some (request_data !! (prefix +:+ "_list")))
      ∧ (response_data !! (prefix +:+ "_actual") = Some None
         ↔ ∃ q choices, request_data !! (prefix +:+ "_requested") = Some q
                        ∧ request_data !! (prefix +:+ "_list") = Some choices
                        ∧ falsy q || falsy choices = true)
      ∧ ((∃ s, response_data !! (prefix +:+ "_actual") = Some (Some s))
         ↔ matched_pair request_data prefix).
Proof.
  intros Hrun. split.
  - intros key [v Hv]. destruct (decide (key = "matcher_version")) as [|Hne]; [by left|].
    right. unfold process_request_with_chunking in Hrun.
    destruct (process_prefixes invoke fuel K request_data possible_prefixes ∅ w)
      as [[resp| |] w1] eqn:Hloop; try done.
    injection Hrun as <- <-. rewrite lookup_insert_ne in Hv by done.
    destruct (process_prefixes_inv invoke _ _ _ _ _ _ _ _ _ _ Hloop Hv)
      as [Hempty|(p & Hp & Hkey & _)]; [by rewrite lookup_empty in Hempty|eauto].
  - intros prefix Hp. split_and!.
    + split.
      * intros [v Hv].
        destruct (process_request_entry invoke _ _ _ _ _ _ _ _ Hrun Hp Hv)
          as (q & c & Hq & Hl & _). by rewrite Hq, Hl.
      * intros [Hq Hl]. by eapply process_request_written.
    + split.
      * intros Hv.
        destruct (process_request_entry invoke _ _ _ _ _ _ _ _ Hrun Hp Hv)
          as (q & c & Hq & Hl & [[Hf _]|(_ & s & ? & _)]); [|done].
        by exists q, c.
      * intros (q & c & Hq & Hl & Hf).
        destruct (process_request_written invoke _ _ _ _ _ _ prefix Hrun Hp) as [v Hv];
          [by eexists..|].
        destruct (process_request_entry invoke _ _ _ _ _ _ _ _ Hrun Hp Hv)
          as (q' & c' & Hq' & Hl' & [[_ ->]|(Hf' & _)]); [done|congruence].
    + symmetry. by eapply process_request_matched.
Qed.

Lemma result_keys_follow_pairs_witness :
  is_Some (({[ "cell_type_actual" := Some "HEK293T";
               "matcher_version" := Some MATCHER_VERSION ]}
            : gmap string (option string)) !! ("species" +:+ "_actual"))
  ↔ is_Some (hek_request !! ("species" +:+ "_requested"))
    ∧ is_Some (hek_request !! ("species" +:+ "_list")).
Proof.
  refine (proj1 (proj2 (result_keys_follow_pairs (pick "HEK293T") 0 20 hek_request fresh
    {[ "cell_type_actual" := Some "HEK293T"; "matcher_version" := Some MATCHER_VERSION ]}
    (World tt [hek_prompt]) _) "species" _)).
  - vm_compute. reflexivity.
  - unfold possible_prefixes. do 2 apply list_elem_of_further. apply list_elem_of_here.
Defined.

(** ** The REST front end, end to end *)

Lemma dump_field_lookup {A : Type} (inj : A → value) (k : string) (f : field A)
    (d : gmap string value) (key : string) :
  dump_field inj k f d !! key
  = if decide (k = key) then
      match dumped inj f with
      | Some v => Some v
      | None => d !! key
      end
    else d !! key.
Proof.
  destruct f as [[a|]|]; simpl; case_decide; subst;
    rewrite ?lookup_insert_eq, ?lookup_insert_ne by done; done.
Qed.

Lemma model_dump_lookup (r : MatcherRequest) :
  model_dump r !! "cell_type_requested" = dumped VStr (cell_type_requested r)
  ∧ model_dump r !! "cell_type_list" = dumped VList (cell_type_list r)
  ∧ model_dump r !! "species_requested" = dumped VStr (species_requested r)
  ∧ model_dump r !! "species_list" = dumped VList (species_list r)
  ∧ model_dump r !! "binding_molecule_requested" = dumped VStr (binding_molecule_requested r)
  ∧ model_dump r !! "binding_molecule_list" = dumped VList (binding_molecule_list r).
Proof.
  unfold model_dump. split_and!; rewrite !dump_field_lookup; simpl;
    rewrite ?lookup_empty; by repeat case_match.
Qed.

(** A query that counts and a list that passed [check_paired_fields] make a
    matched pair of the dumped document. *)
Lemma dumped_pair (requested : field string) (choices : field (list string)) :
  truthy_str (attr requested) = true →
  is_not_None (attr requested) && not_list (attr choices) = false →
  ∃ q l, dumped VStr requested = Some q ∧ dumped VList choices = Some l
         ∧ falsy q || falsy l = false.
Proof.
  destruct requested as [[s|]|]; simpl; try done. intros Hs.
  destruct choices as [[l|]|]; simpl; try done. intros Hl.
  exists (VStr s), (VList l). split_and!; try done. simpl.
  apply negb_true_iff in Hs. by rewrite Hs, Hl.
Qed.

Lemma validated_has_matched_pair (r : MatcherRequest) :
  validate r = None →
  ∃ prefix, prefix ∈ possible_prefixes ∧ matched_pair (model_dump r) prefix.
Proof.
  unfold validate, check_paired_fields, check_at_least_one_pair.
  destruct (is_not_None (attr (cell_type_requested r))
            && not_list (attr (cell_type_list r))) eqn:H1; [done|].
  destruct (is_not_None (attr (species_requested r))
            && not_list (attr (species_list r))) eqn:H2; [done|].
  destruct (is_not_None (attr (binding_molecule_requested r))
            && not_list (attr (binding_molecule_list r))) eqn:H3; [done|].
  destruct (model_dump_lookup r) as (D1 & D2 & D3 & D4 & D5 & D6).
  destruct (truthy_str (attr (cell_type_requested r))) eqn:T1.
  { intros _. exists "cell_type". split; [apply list_elem_of_here|].
    destruct (dumped_pair _ _ T1 H1) as (q & l & Hq & Hl & Hf).
    exists q, l. eval_keys. by rewrite D1, D2. }
  destruct (truthy_str (attr (species_requested r))) eqn:T2.
  { intros _. exists "species".
    split; [unfold possible_prefixes; do 2 apply list_elem_of_further;
            apply list_elem_of_here|].
    destruct (dumped_pair _ _ T2 H2) as (q & l & Hq & Hl & Hf).
    exists q, l. eval_keys. by rewrite D3, D4. }
  destruct (truthy_str (attr (binding_molecule_requested r))) eqn:T3; [|done].
  intros _. exists "binding_molecule".
  split; [unfold possible_prefixes; apply list_elem_of_further, list_elem_of_here|].
  destruct (dumped_pair _ _ T3 H3) as (q & l & Hq & Hl & Hf).
  exists q, l. eval_keys. by rewrite D5, D6.
Qed.

(** The documents of the REST front end hold lists where lists are
    expected: the body was parsed into the types of [MatcherRequest]. *)
Lemma model_dump_lists_iterable (r : MatcherRequest) : lists_iterable (model_dump r) = true.
Proof.
  destruct (model_dump_lookup r) as (D1 & D2 & D3 & D4 & D5 & D6).
  unfold lists_iterable, possible_prefixes, list_ok. simpl. eval_keys.
  rewrite D1, D2, D3, D4, D5, D6.
  destruct (cell_type_requested r) as [[?|]|], (cell_type_list r) as [[?|]|],
    (species_requested r) as [[?|]|], (species_list r) as [[?|]|],
    (binding_molecule_requested r) as [[?|]|], (binding_molecule_list r) as [[?|]|];
    simpl; rewrite ?orb_true_r; reflexivity.
Qed.

(** X10.  A body that passes the two validators is always answered with
    status 200, never with 422 or 500: the engine runs at the default
    chunk size, and the result holds [matcher_version] and a string (a
    candidate or "NULL") for at least one category, the one whose query
    made the body valid. *)
Theorem validated_request_is_answered {St : Type}
    (invoke : St → template → prompt → llm_reply * St) (fuel : nat)
    (r : MatcherRequest) (w : @world St) :
  validate r = None → request_fuel (model_dump r) ≤ fuel →
  ∃ body w',
    perform_match invoke fuel r w = (Done (OK body), w')
    ∧ body !! "matcher_version" = Some (Some "2.0")
    ∧ ∃ prefix s, prefix ∈ possible_prefixes
                  ∧ body !! (prefix +:+ "_actual") = Some (Some s).
Proof.
  intros Hvalid Hfuel. unfold perform_match. rewrite Hvalid.
  destruct (process_request_total invoke fuel default_chunk_size (model_dump r) w)
    as (body & w' & Hrun & Hversion);
    [unfold default_chunk_size; lia|done|apply model_dump_lists_iterable|].
  rewrite Hrun. exists body, w'. split_and!; try done.
  destruct (validated_has_matched_pair r Hvalid) as (prefix & Hp & Hpair).
  apply (process_request_matched invoke _ _ _ _ _ _ prefix Hrun Hp) in Hpair as [s Hs].
  eauto.
Qed.

Lemma validated_request_is_answered_witness :
  ∃ body w',
    perform_match (pick "Homo sapiens") 3 unpaired_list_request fresh
    = (Done (OK body), w')
    ∧ body !! "matcher_version" = Some (Some "2.0")
    ∧ ∃ prefix s, prefix ∈ possible_prefixes
                  ∧ body !! (prefix +:+ "_actual") = Some (Some s).
Proof.
  refine (validated_request_is_answered (pick "Homo sapiens") 3 unpaired_list_request
            fresh _ _).
  - reflexivity.
  - vm_compute. lia.
Defined.

(** X11.  Every result of the engine builds a [MatcherResponse]: the
    version is "2.0", and the field of a category is a string exactly when
    the category was matched; a category that the request does not hold
    and one whose pair is empty both read null. *)
Theorem response_model_always_builds {St : Type}
    (invoke : St → template → prompt → llm_reply * St) (fuel : nat) (K : Z)
    (request_data : gmap string value) (w : @world St)
    (response_data : gmap string (option string)) (w' : @world St) :
  process_request_with_chunking invoke fuel request_data K w = (Done response_data, w') →
  ∃ m, MatcherResponse_of response_data = Some m
       ∧ matcher_version m = "2.0"
       ∧ (is_Some (cell_type_actual m) ↔ matched_pair request_data "cell_type")
       ∧ (is_Some (species_actual m) ↔ matched_pair request_data "species")
       ∧ (is_Some (binding_molecule_actual m)
          ↔ matched_pair request_data "binding_molecule").
Proof.
  intros Hrun.
  assert (response_data !! "matcher_version" = Some (Some "2.0")) as Hversion.
  { unfold process_request_with_chunking in Hrun.
    destruct (process_prefixes invoke fuel K request_data possible_prefixes ∅ w)
      as [[resp| |] w1]; try done.
    injection Hrun as <- <-. apply lookup_insert_eq. }
  assert (∀ prefix, prefix ∈ possible_prefixes →
            is_Some (optional_kwarg response_data (prefix +:+ "_actual"))
            ↔ matched_pair request_data prefix) as Hfield.
  { intros prefix Hp.
    rewrite (process_request_matched invoke _ _ _ _ _ _ prefix Hrun Hp).
    unfold optional_kwarg.
    destruct (response_data !! (prefix +:+ "_actual")) as [[s|]|]; split;
      try (by intros [? ?]); try (by intros ?; eexists). }
  unfold MatcherResponse_of. rewrite Hversion. eexists. split; [done|]. simpl.
  split_and!; [done|..].
  - apply (Hfield "cell_type"). apply list_elem_of_here.
  - apply (Hfield "species"). unfold possible_prefixes.
    do 2 apply list_elem_of_further. apply list_elem_of_here.
  - apply (Hfield "binding_molecule"). unfold possible_prefixes.
    apply list_elem_of_further, list_elem_of_here.
Qed.

Lemma response_model_always_builds_witness :
  ∃ m, MatcherResponse_of
         {[ "cell_type_actual" := Some "HEK293T"; "matcher_version" := Some MATCHER_VERSION ]}
       = Some m
       ∧ matcher_version m = "2.0"
       ∧ (is_Some (cell_type_actual m) ↔ matched_pair hek_request "cell_type")
       ∧ (is_Some (species_actual m) ↔ matched_pair hek_request "species")
       ∧ (is_Some (binding_molecule_actual m)
          ↔ matched_pair hek_request "binding_molecule").
Proof.
  refine (response_model_always_builds (pick "HEK293T") 0 20 hek_request fresh
    {[ "cell_type_actual" := Some "HEK293T"; "matcher_version" := Some MATCHER_VERSION ]}
    (World tt [hek_prompt]) _).
  vm_compute. reflexivity.
Defined.

(** ** The length prefix *)

Lemma byte_to_Z_bounded (b : byte) : (0 ≤ byte_to_Z b < 256)%Z.
Proof. unfold byte_to_Z. pose proof (Byte.to_N_bounded b). lia. Qed.

Lemma byte_to_of_Z (z : Z) : byte_to_Z (byte_of_Z z) = (z mod 256)%Z.
Proof.
  unfold byte_to_Z, byte_of_Z.
  pose proof (Z.mod_pos_bound z 256 ltac:(lia)) as Hb.
  destruct (Byte.of_N (Z.to_N (z mod 256))) as [b|] eqn:Hof.
  - apply Byte.to_of_N in Hof. rewrite Hof. lia.
  - apply Byte.of_N_None_iff in Hof. lia.
Qed.

Lemma byte_of_to_Z (b : byte) (z : Z) : (z mod 256)%Z = byte_to_Z b → byte_of_Z z = b.
Proof.
  unfold byte_to_Z, byte_of_Z. intros ->.
  by rewrite N2Z.id, Byte.of_to_N.
Qed.

(** X12.  The 4-byte big-endian length prefix round-trips: every length
    below 2^32 is packed into four bytes that unpack to it, any other
    number is refused by [struct.pack], and whatever four bytes unpack to
    is a length below 2^32 that packs into the same bytes; anything but
    four bytes is refused by [struct.unpack]. *)
Theorem length_prefix_round_trip (n : Z) (b : list byte) :
  ((0 ≤ n < 4294967296)%Z →
   ∃ packed, pack_be32 n = Some packed ∧ length packed = 4
             ∧ unpack_be32 packed = Some n)
  ∧ (¬ (0 ≤ n < 4294967296)%Z → pack_be32 n = None)
  ∧ (length b ≠ 4 → unpack_be32 b = None)
  ∧ (∀ m, unpack_be32 b = Some m → (0 ≤ m < 4294967296)%Z ∧ pack_be32 m = Some b).
Proof.
  split_and!.
  - intros Hn. unfold pack_be32. rewrite bool_decide_eq_true_2 by done.
    eexists. split_and!; [done..|]. unfold unpack_be32.
    rewrite !byte_to_of_Z. f_equal. Z.div_mod_to_equations. lia.
  - intros Hn. unfold pack_be32. by rewrite bool_decide_eq_false_2.
  - intros Hlen. by destruct b as [|? [|? [|? [|? [|? ?]]]]].
  - intros m Hm. destruct b as [|b0 [|b1 [|b2 [|b3 [|? ?]]]]]; try done.
    injection Hm as <-.
    pose proof (byte_to_Z_bounded b0). pose proof (byte_to_Z_bounded b1).
    pose proof (byte_to_Z_bounded b2). pose proof (byte_to_Z_bounded b3).
    split; [lia|]. unfold pack_be32. rewrite bool_decide_eq_true_2 by lia.
    repeat f_equal; apply byte_of_to_Z; Z.div_mod_to_equations; lia.
Qed.

(** ** One exchange of the session *)

Section ExchangeFacts.
Context {St : Type}.
Variable invoke : St → template → prompt → llm_reply * St.
Variable arrive : nat → nat → nat.
Variable decode_payload : list byte → option (gmap string value).
Variable encode_response : gmap string (option string) → list byte.
Implicit Types (c : conn) (w : @world St).

(** Whatever the segmentation, the payload loop hands over exactly the
    bytes the prefix announced and leaves the rest of the stream. *)
Lemma recv_payload_exact (fuel : nat) (msglen : Z) (data_recv payload rest : list byte) c :
  inbox c = payload ++ rest →
  Z.of_nat (length data_recv + length payload) = msglen →
  length payload < fuel →
  recv_payload arrive fuel msglen data_recv c
  = (Done (data_recv ++ payload), Conn rest (reset c) (room c) (sent c) (closed c)).
Proof.
  revert data_recv payload c.
  induction fuel as [|fuel IH]; intros data payload c Hin Hlen Hfuel; [lia|].
  rewrite recv_payload_unfold. destruct payload as [|b payload].
  - rewrite bool_decide_eq_false_2 by (simpl in Hlen; lia).
    rewrite app_nil_r. simpl in Hin. destruct c; simpl in *. by subst.
  - rewrite bool_decide_eq_true_2 by (rewrite <- Hlen; simpl; lia).
    unfold recv. rewrite Hin. simpl app.
    set (n := Z.to_nat (Z.min BUFFER_SIZE (msglen - Z.of_nat (length data)))).
    set (k := Nat.max 1 (Nat.min n (arrive (length (b :: payload ++ rest)) n))).
    assert (1 ≤ k ≤ length (b :: payload)) as Hk.
    { subst k n. unfold BUFFER_SIZE. simpl length in *. lia. }
    cbv beta iota zeta. rewrite bool_decide_eq_false_2.
    2: { rewrite length_take. simpl length. lia. }
    replace (take k (b :: payload ++ rest)) with (take k (b :: payload)).
    2: { change (b :: payload ++ rest) with ((b :: payload) ++ rest).
         by rewrite take_app_le by lia. }
    rewrite (IH (data ++ take k (b :: payload)) (drop k (b :: payload))
               (consume k c)).
    + rewrite <- app_assoc, take_drop. done.
    + unfold consume. simpl inbox. rewrite Hin.
      change (b :: payload ++ rest) with ((b :: payload) ++ rest).
      by rewrite drop_app_le by lia.
    + rewrite length_app, length_take, length_drop. rewrite <- Hlen. lia.
    + rewrite length_drop. lia.
Qed.

(** A well-formed frame at the head of the stream: the pass reads it, and
    what it goes on to do is decided by the engine and by the peer. *)
Lemma serve_request_complete c w (header payload rest : list byte)
    (request_data : gmap string value) :
  inbox c = header ++ payload ++ rest →
  unpack_be32 header = Some (Z.of_nat (length payload)) →
  decode_payload payload = Some request_data →
  serve_request invoke arrive decode_payload encode_response c w
  = match process_request_with_chunking invoke (request_fuel request_data) request_data
            default_chunk_size w with
    | (Done response_data, w') =>
        match pack_be32 (Z.of_nat (length (encode_response response_data))) with
        | None => (Raised StructError, Conn rest (reset c) (room c) (sent c) (closed c), w')
        | Some response_header =>
            match sendall response_header
                    (Conn rest (reset c) (room c) (sent c) (closed c)) with
            | (Done _, c3) =>
                match sendall (encode_response response_data) c3 with
                | (Done _, c4) => (Done true, c4, w')
                | (Raised e, c4) => (Raised e, c4, w')
                | (OutOfFuel, c4) => (OutOfFuel, c4, w')
                end
            | (Raised e, c3) => (Raised e, c3, w')
            | (OutOfFuel, c3) => (OutOfFuel, c3, w')
            end
        end
    | (Raised e, w') => (Raised e, Conn rest (reset c) (room c) (sent c) (closed c), w')
    | (OutOfFuel, w') => (OutOfFuel, Conn rest (reset c) (room c) (sent c) (closed c), w')
    end.
Proof.
  intros Hin Hunpack Hdecode.
  pose proof (unpack_be32_length _ _ Hunpack) as Hlen.
  unfold serve_request, recv_waitall.
  rewrite bool_decide_eq_true_2 by (rewrite Hin, length_app; lia).
  assert (take 4 (inbox c) = header) as ->.
  { rewrite Hin, <- Hlen. by rewrite take_app_length. }
  rewrite bool_decide_eq_false_2 by lia. rewrite Hunpack.
  rewrite (recv_payload_exact _ _ [] payload rest).
  2: { unfold consume. simpl. by rewrite Hin, <- Hlen, drop_app_length. }
  2: { done. }
  2: { unfold consume. simpl inbox. rewrite Hin, <- Hlen, drop_app_length, length_app. lia. }
  simpl app. rewrite bool_decide_eq_true_2 by done. simpl negb. cbv iota.
  rewrite Hdecode. done.
Qed.

(** The response frame goes out whole when the peer takes it. *)
Lemma serve_request_delivered c w (header payload rest : list byte)
    (request_data : gmap string value) (response_data : gmap string (option string)) w'
    (response_header : list byte) :
  inbox c = header ++ payload ++ rest →
  unpack_be32 header = Some (Z.of_nat (length payload)) →
  decode_payload payload = Some request_data →
  process_request_with_chunking invoke (request_fuel request_data) request_data
    default_chunk_size w = (Done response_data, w') →
  pack_be32 (Z.of_nat (length (encode_response response_data))) = Some response_header →
  room c = None →
  serve_request invoke arrive decode_payload encode_response c w
  = (Done true,
     Conn rest (reset c) None (sent c ++ response_header ++ encode_response response_data)
       (closed c), w').
Proof.
  intros Hin Hunpack Hdecode Hrun Hpack Hroom.
  rewrite (serve_request_complete c w header payload rest request_data Hin Hunpack Hdecode).
  rewrite Hrun, Hpack. unfold sendall. simpl. rewrite Hroom. simpl.
  by rewrite <- app_assoc.
Qed.

(** The connection breaks while the response frame goes out. *)
Lemma serve_request_broken c w (header payload rest : list byte)
    (request_data : gmap string value) (response_data : gmap string (option string)) w'
    (response_header : list byte) (k : nat) :
  inbox c = header ++ payload ++ rest →
  unpack_be32 header = Some (Z.of_nat (length payload)) →
  decode_payload payload = Some request_data →
  process_request_with_chunking invoke (request_fuel request_data) request_data
    default_chunk_size w = (Done response_data, w') →
  pack_be32 (Z.of_nat (length (encode_response response_data))) = Some response_header →
  room c = Some k → k < 4 + length (encode_response response_data) →
  serve_request invoke arrive decode_payload encode_response c w
  = (Raised BrokenPipeError,
     Conn rest (reset c) (Some 0)
       (sent c ++ take k (response_header ++ encode_response response_data)) (closed c), w').
Proof.
  intros Hin Hunpack Hdecode Hrun Hpack Hroom Hk.
  rewrite (serve_request_complete c w header payload rest request_data Hin Hunpack Hdecode).
  rewrite Hrun, Hpack.
  assert (length response_header = 4) as Hfour.
  { unfold pack_be32 in Hpack. case_bool_decide; [|done]. by injection Hpack as <-. }
  unfold sendall. cbn [room inbox reset sent closed]. rewrite Hroom.
  case_bool_decide as Hhead; cbn [room inbox reset sent closed].
  - rewrite bool_decide_eq_false_2 by lia.
    rewrite <- app_assoc, take_app_ge by lia. done.
  - by rewrite take_app_le by lia.
Qed.

(** The stream ends where a length prefix should begin: the pass ends the
    session, whether the peer closed in order, broke off inside the
    prefix or reset the connection. *)
Lemma iteration_tail c w :
  length (inbox c) < 4 →
  iteration invoke arrive decode_payload encode_response c w
  = (Done false, Conn [] (reset c) (room c) (sent c) (S (closed c)), w).
Proof.
  intros Hlen. unfold iteration, serve_request, recv_waitall.
  rewrite bool_decide_eq_false_2 by lia.
  assert (drop 4 (inbox c) = []) as Hdrop by (apply drop_ge; lia).
  destruct (reset c) eqn:Hr.
  - simpl. unfold close, consume. simpl. by rewrite Hdrop, Hr.
  - case_bool_decide as Hempty.
    + simpl. unfold close, consume. simpl. by rewrite Hdrop, Hr.
    + assert (unpack_be32 (inbox c) = None) as ->.
      { destruct (inbox c) as [|? [|? [|? [|? [|? ?]]]]]; simpl in *; done || lia. }
      simpl. unfold close, consume. simpl. by rewrite Hdrop, Hr.
Qed.

(** A frame whose payload does not decode. *)
Lemma serve_request_undecodable c w (header payload rest : list byte) :
  inbox c = header ++ payload ++ rest →
  unpack_be32 header = Some (Z.of_nat (length payload)) →
  decode_payload payload = None →
  serve_request invoke arrive decode_payload encode_response c w
  = (Done false, Conn rest (reset c) (room c) (sent c) (closed c), w).
Proof.
  intros Hin Hunpack Hdecode.
  pose proof (unpack_be32_length _ _ Hunpack) as Hlen.
  unfold serve_request, recv_waitall.
  rewrite bool_decide_eq_true_2 by (rewrite Hin, length_app; lia).
  assert (take 4 (inbox c) = header) as ->.
  { rewrite Hin, <- Hlen. by rewrite take_app_length. }
  rewrite bool_decide_eq_false_2 by lia. rewrite Hunpack.
  rewrite (recv_payload_exact _ _ [] payload rest).
  2: { unfold consume. simpl. by rewrite Hin, <- Hlen, drop_app_length. }
  2: { done. }
  2: { unfold consume. simpl inbox. rewrite Hin, <- Hlen, drop_app_length, length_app. lia. }
  simpl app. rewrite bool_decide_eq_true_2 by done. simpl negb. cbv iota.
  by rewrite Hdecode.
Qed.

(** Once the stream has ended short of the announced length the payload
    loop has read it to its end and raises. *)
Lemma recv_payload_ended (fuel : nat) (msglen : Z) (data_recv : list byte) c :
  length (inbox c) < fuel →
  (Z.of_nat (length data_recv + length (inbox c)) < msglen)%Z →
  recv_payload arrive fuel msglen data_recv c
  = (Raised (if reset c then ConnectionResetError else ConnectionError),
     Conn [] (reset c) (room c) (sent c) (closed c)).
Proof.
  revert data_recv c. induction fuel as [|fuel IH]; intros data c Hfuel Hshort; [lia|].
  rewrite recv_payload_unfold. rewrite bool_decide_eq_true_2 by lia.
  unfold recv. destruct c as [inb rst wr snt cl]. cbn [inbox reset room sent closed] in *.
  destruct inb as [|b inb].
  - by destruct rst.
  - set (n := Z.to_nat (Z.min BUFFER_SIZE (msglen - Z.of_nat (length data)))).
    set (k := Nat.max 1 (Nat.min n (arrive (length (b :: inb)) n))).
    assert (1 ≤ k) as Hk by (subst k; lia).
    cbv beta iota zeta. rewrite bool_decide_eq_false_2.
    2: { rewrite length_take. simpl length in *. lia. }
    rewrite IH.
    + done.
    + unfold consume. cbn [inbox]. rewrite length_drop. simpl length in *. lia.
    + unfold consume. cbn [inbox]. rewrite length_app, length_take, length_drop. lia.
Qed.
End ExchangeFacts.

Lemma unpack_be32_nonneg (b : list byte) (n : Z) : unpack_be32 b = Some n → (0 ≤ n)%Z.
Proof.
  destruct b as [|b0 [|b1 [|b2 [|b3 [|? ?]]]]]; try done. intros [= <-].
  pose proof (byte_to_Z_bounded b0). pose proof (byte_to_Z_bounded b1).
  pose proof (byte_to_Z_bounded b2). pose proof (byte_to_Z_bounded b3). lia.
Qed.

(** What the payload loop returns does not depend on how the stream was
    cut into packets. *)
Lemma recv_payload_determined (arrive arrive' : nat → nat → nat) (msglen : Z) (c : conn) :
  (0 ≤ msglen)%Z →
  recv_payload arrive (S (length (inbox c))) msglen [] c
  = recv_payload arrive' (S (length (inbox c))) msglen [] c.
Proof.
  intros Hpos. destruct (decide (Z.to_nat msglen ≤ length (inbox c))) as [Hall|Hshort].
  - rewrite !(recv_payload_exact _ _ _ [] (take (Z.to_nat msglen) (inbox c))
                (drop (Z.to_nat msglen) (inbox c)));
      rewrite ?take_drop, ?length_take; simpl; done || lia.
  - rewrite !recv_payload_ended; simpl; done || lia.
Qed.

Lemma serve_request_determined {St : Type}
    (invoke : St → template → prompt → llm_reply * St) (arrive arrive' : nat → nat → nat)
    (decode_payload : list byte → option (gmap string value))
    (encode_response : gmap string (option string) → list byte) (c : conn) (w : @world St) :
  serve_request invoke arrive decode_payload encode_response c w
  = serve_request invoke arrive' decode_payload encode_response c w.
Proof.
  unfold serve_request. destruct (recv_waitall 4 c) as [[header|e|] c1]; try done.
  case_bool_decide; [done|].
  destruct (unpack_be32 header) as [msglen|] eqn:Hunpack; [|done].
  by rewrite (recv_payload_determined arrive arrive') by (by eapply unpack_be32_nonneg).
Qed.

(** X13.  A stream made of well-formed request frames, followed by fewer
    than four bytes (none, when the peer closes in order), from a peer
    that takes what is sent; the documents hold lists that can be
    iterated, and the encoded results of this session fit the length
    prefix.  Whatever the segmentation, the session answers every frame,
    in order, with the response frame of the engine's result for it (the
    oracle's state passing from one request to the next), reads the stream
    to its end, and then closes the connection, once. *)
Theorem session_answers_frames_in_order {St : Type}
    (invoke : St → template → prompt → llm_reply * St) (arrive : nat → nat → nat)
    (decode_payload : list byte → option (gmap string value))
    (encode_response : gmap string (option string) → list byte)
    (frames : list (list byte * list byte)) (requests : list (gmap string value))
    (tail : list byte) (fuel : nat) (c : conn) (w : @world St) :
  Forall well_framed frames →
  Forall2 (λ f request_data, decode_payload f.2 = Some request_data) frames requests →
  Forall (λ request_data, lists_iterable request_data = true) requests →
  Forall (λ response_data,
            (Z.of_nat (length (encode_response response_data)) < 4294967296)%Z)
    (answers invoke requests w).1 →
  room c = None →
  inbox c = concat (map frame_bytes frames) ++ tail →
  length tail < 4 →
  length (inbox c) < fuel →
  ∃ out,
    Forall2 (λ response_data, is_response_frame (encode_response response_data))
      (answers invoke requests w).1 out
    ∧ length out = length frames
    ∧ handle_client invoke arrive decode_payload encode_response fuel c w
      = (Done tt, Conn [] (reset c) None (sent c ++ concat out) (S (closed c)),
         (answers invoke requests w).2).
Proof.
  intros Hframed Hdecode Hiter Hfits Hroom Hin Htail Hfuel.
  revert fuel c w Hframed Hiter Hfits Hroom Hin Hfuel.
  induction Hdecode as [|[header payload] request_data frames requests Hdec _ IH];
    intros fuel c w Hframed Hiter Hfits Hroom Hin Hfuel; (destruct fuel as [|fuel]; [lia|]).
  - exists []. split; [constructor|]. split; [done|]. simpl handle_client.
    rewrite iteration_tail by (rewrite Hin; simpl; lia).
    simpl. by rewrite app_nil_r, Hroom.
  - apply Forall_cons in Hframed as [Hhead Hframed]. unfold well_framed in Hhead.
    apply Forall_cons in Hiter as [Hiter1 Hiter].
    simpl in Hhead, Hdec.
    pose proof (unpack_be32_length _ _ Hhead) as Hlen.
    assert (inbox c = header ++ payload ++ concat (map frame_bytes frames) ++ tail) as Hin'.
    { rewrite Hin. simpl. unfold frame_bytes at 1. simpl. by rewrite <- !app_assoc. }
    destruct (process_request_total invoke (request_fuel request_data) default_chunk_size
                request_data w) as (response_data & w1 & Hrun & _);
      [unfold default_chunk_size; lia|done..|].
    simpl answers in Hfits |- *. rewrite Hrun in Hfits |- *.
    destruct (answers invoke requests w1) as [responses w2] eqn:Hans. simpl in Hfits |- *.
    apply Forall_cons in Hfits as [Hfit Hfits].
    destruct (pack_be32 (Z.of_nat (length (encode_response response_data))))
      as [response_header|] eqn:Hpack.
    2: { unfold pack_be32 in Hpack. rewrite bool_decide_eq_true_2 in Hpack; [done|lia]. }
    destruct (IH fuel
                (Conn (concat (map frame_bytes frames) ++ tail) (reset c) None
                   (sent c ++ response_header ++ encode_response response_data) (closed c))
                w1 Hframed Hiter) as (out & Hout & Hcount & Hrest);
      [by rewrite Hans|done|done| |].
    { cbn [inbox]. rewrite Hin' in Hfuel. rewrite !length_app in Hfuel.
      rewrite !length_app. lia. }
    rewrite Hans in Hout, Hrest. simpl in Hout, Hrest.
    exists ((response_header ++ encode_response response_data) :: out).
    split_and!.
    + constructor; [|done]. by exists response_header.
    + simpl. by rewrite Hcount.
    + cbn [handle_client]. unfold iteration.
      rewrite (serve_request_delivered invoke arrive decode_payload encode_response c w
                 header payload _ request_data response_data w1 response_header
                 Hin' Hhead Hdec Hrun Hpack Hroom).
      simpl finally. rewrite Hrest. simpl. by rewrite <- !app_assoc.
Qed.

Lemma session_answers_frames_in_order_witness :
  ∃ out,
    Forall2 (λ response_data, is_response_frame (encode_stub response_data))
      (answers echo_first [∅; ∅] fresh).1 out
    ∧ length out = 2
    ∧ handle_client echo_first single_bytes decode_stub encode_stub 14
        (Conn ([x00; x00; x00; x02; x7b; x7d] ++ [x00; x00; x00; x02; x7b; x7d] ++ [x00])
           false None [] 0) fresh
      = (Done tt, Conn [] false None ([] ++ concat out) 1,
         (answers echo_first [∅; ∅] fresh).2).
Proof.
  apply (session_answers_frames_in_order echo_first single_bytes decode_stub encode_stub
           [([x00; x00; x00; x02], empty_document); ([x00; x00; x00; x02], empty_document)]
           [∅; ∅] [x00] 14
           (Conn ([x00; x00; x00; x02; x7b; x7d] ++ [x00; x00; x00; x02; x7b; x7d] ++ [x00])
              false None [] 0) fresh).
  - repeat constructor.
  - repeat constructor.
  - repeat constructor.
  - repeat constructor; by vm_compute.
  - reflexivity.
  - reflexivity.
  - simpl. lia.
  - simpl. lia.
Defined.

(** X14.  A complete frame whose payload does not decode ends the session
    at that frame: nothing is matched, no oracle call is made, no response
    is written, the connection is closed once, and the bytes that follow
    the frame are never read. *)
Theorem undecodable_payload_ends_session {St : Type}
    (invoke : St → template → prompt → llm_reply * St) (arrive : nat → nat → nat)
    (decode_payload : list byte → option (gmap string value))
    (encode_response : gmap string (option string) → list byte)
    (header payload rest : list byte) (fuel : nat) (c : conn) (w : @world St) :
  inbox c = header ++ payload ++ rest →
  unpack_be32 header = Some (Z.of_nat (length payload)) →
  decode_payload payload = None →
  handle_client invoke arrive decode_payload encode_response (S fuel) c w
  = (Done tt, Conn rest (reset c) (room c) (sent c) (S (closed c)), w).
Proof.
  intros Hin Hunpack Hdecode. simpl. unfold iteration.
  by rewrite (serve_request_undecodable invoke arrive decode_payload encode_response c w
                header payload rest Hin Hunpack Hdecode).
Qed.

Lemma undecodable_payload_ends_session_witness :
  handle_client echo_first whole_packets decode_stub encode_stub 1
    (Conn ([x00; x00; x00; x01] ++ [x7b] ++ [x00; x00; x00; x02; x7b; x7d]) false None [] 0)
    fresh
  = (Done tt, Conn [x00; x00; x00; x02; x7b; x7d] false None [] 1, fresh).
Proof.
  apply (undecodable_payload_ends_session echo_first whole_packets decode_stub encode_stub
           [x00; x00; x00; x01] [x7b] [x00; x00; x00; x02; x7b; x7d] 0
           (Conn ([x00; x00; x00; x01] ++ [x7b] ++ [x00; x00; x00; x02; x7b; x7d])
              false None [] 0) fresh); reflexivity.
Defined.

(** X15.  A request that was matched but whose response cannot be
    delivered ends the session.  When the encoded result does not fit the
    length prefix, nothing is written.  When the connection breaks while
    the response frame goes out, what went out is the part of the frame,
    length prefix first, that the peer still took: it can be the whole
    prefix and part of the body.  In both cases the oracle calls of the
    match have been made, the connection is closed once and the rest of
    the stream is left unread. *)
Theorem undeliverable_response_ends_session {St : Type}
    (invoke : St → template → prompt → llm_reply * St) (arrive : nat → nat → nat)
    (decode_payload : list byte → option (gmap string value))
    (encode_response : gmap string (option string) → list byte)
    (header payload rest : list byte) (request_data : gmap string value)
    (response_data : gmap string (option string))
    (fuel : nat) (c : conn) (w w' : @world St) :
  inbox c = header ++ payload ++ rest →
  unpack_be32 header = Some (Z.of_nat (length payload)) →
  decode_payload payload = Some request_data →
  process_request_with_chunking invoke (request_fuel request_data) request_data
    default_chunk_size w = (Done response_data, w') →
  (pack_be32 (Z.of_nat (length (encode_response response_data))) = None →
   handle_client invoke arrive decode_payload encode_response (S fuel) c w
   = (Done tt, Conn rest (reset c) (room c) (sent c) (S (closed c)), w'))
  ∧ (∀ response_header k,
       pack_be32 (Z.of_nat (length (encode_response response_data)))
       = Some response_header →
       room c = Some k → k < 4 + length (encode_response response_data) →
       handle_client invoke arrive decode_payload encode_response (S fuel) c w
       = (Done tt,
          Conn rest (reset c) (Some 0)
            (sent c ++ take k (response_header ++ encode_response response_data))
            (S (closed c)), w')).
Proof.
  intros Hin Hunpack Hdecode Hrun. split.
  - intros Hpack. simpl. unfold iteration.
    rewrite (serve_request_complete invoke arrive decode_payload encode_response c w
               header payload rest request_data Hin Hunpack Hdecode).
    by rewrite Hrun, Hpack.
  - intros response_header k Hpack Hroom Hk. simpl. unfold iteration.
    by rewrite (serve_request_broken invoke arrive decode_payload encode_response c w
                  header payload rest request_data response_data w' response_header k
                  Hin Hunpack Hdecode Hrun Hpack Hroom Hk).
Qed.

Lemma undeliverable_response_ends_session_witness :
  handle_client echo_first single_bytes decode_stub encode_stub 1
    (Conn ([x00; x00; x00; x02] ++ [x7b; x7d] ++ [x01]) false (Some 6) [] 0) fresh
  = (Done tt,
     Conn [x01] false (Some 0)
       ([] ++ take 6 ([x00; x00; x00; x1a]
                      ++ encode_stub {[ "matcher_version" := Some "2.0" ]})) 1,
     fresh).
Proof.
  apply (proj2 (undeliverable_response_ends_session echo_first single_bytes decode_stub
                  encode_stub [x00; x00; x00; x02] [x7b; x7d] [x01] ∅
                  {[ "matcher_version" := Some "2.0" ]} 0
                  (Conn ([x00; x00; x00; x02] ++ [x7b; x7d] ++ [x01]) false (Some 6) [] 0)
                  fresh fresh eq_refl eq_refl eq_refl eq_refl)
           [x00; x00; x00; x1a] 6).
  - vm_compute. reflexivity.
  - reflexivity.
  - vm_compute. lia.
Defined.

(** X18.  A request document that the engine cannot read (a candidate
    list that is a number or a boolean, next to a non-empty query) ends
    the session at that frame: the [TypeError] is caught by the session,
    no response is written, the connection is closed once and the bytes
    that follow the frame are left unread. *)
Theorem unreadable_document_ends_session {St : Type}
    (invoke : St → template → prompt → llm_reply * St) (arrive : nat → nat → nat)
    (decode_payload : list byte → option (gmap string value))
    (encode_response : gmap string (option string) → list byte)
    (header payload rest : list byte) (request_data : gmap string value)
    (fuel : nat) (c : conn) (w : @world St) :
  inbox c = header ++ payload ++ rest →
  unpack_be32 header = Some (Z.of_nat (length payload)) →
  decode_payload payload = Some request_data →
  lists_iterable request_data = false →
  ∃ w',
    process_request_with_chunking invoke (request_fuel request_data) request_data
      default_chunk_size w = (Raised TypeError, w')
    ∧ handle_client invoke arrive decode_payload encode_response (S fuel) c w
      = (Done tt, Conn rest (reset c) (room c) (sent c) (S (closed c)), w').
Proof.
  intros Hin Hunpack Hdecode Hbad.
  destruct (process_request_type_error invoke (request_fuel request_data)
              default_chunk_size request_data w) as (w' & Hrun);
    [unfold default_chunk_size; lia|done..|].
  exists w'. split; [done|]. simpl. unfold iteration.
  rewrite (serve_request_complete invoke arrive decode_payload encode_response c w
             header payload rest request_data Hin Hunpack Hdecode).
  by rewrite Hrun.
Qed.

Lemma unreadable_document_ends_session_witness :
  ∃ w',
    process_request_with_chunking echo_first
      (request_fuel {[ "cell_type_requested" := VStr "a"; "cell_type_list" := VNum 5 ]})
      {[ "cell_type_requested" := VStr "a"; "cell_type_list" := VNum 5 ]}
      default_chunk_size fresh = (Raised TypeError, w')
    ∧ handle_client echo_first whole_packets
        (λ payload, Some {[ "cell_type_requested" := VStr "a"; "cell_type_list" := VNum 5 ]})
        encode_stub 1
        (Conn ([x00; x00; x00; x01] ++ [x7b] ++ [x02]) false None [] 0) fresh
      = (Done tt, Conn [x02] false None [] 1, w').
Proof.
  apply (unreadable_document_ends_session echo_first whole_packets
           (λ payload, Some {[ "cell_type_requested" := VStr "a"; "cell_type_list" := VNum 5 ]})
           encode_stub [x00; x00; x00; x01] [x7b] [x02]
           {[ "cell_type_requested" := VStr "a"; "cell_type_list" := VNum 5 ]} 0
           (Conn ([x00; x00; x00; x01] ++ [x7b] ++ [x02]) false None [] 0) fresh);
    reflexivity.
Defined.

(** X16.  The session does not depend on how the network cut the stream
    into packets: two runs over the same stream that differ only in what
    each [recv] of the payload loop handed over end in the same state,
    with the same bytes written and the same oracle calls made. *)
Theorem segmentation_does_not_matter {St : Type}
    (invoke : St → template → prompt → llm_reply * St) (arrive arrive' : nat → nat → nat)
    (decode_payload : list byte → option (gmap string value))
    (encode_response : gmap string (option string) → list byte)
    (fuel : nat) (c : conn) (w : @world St) :
  handle_client invoke arrive decode_payload encode_response fuel c w
  = handle_client invoke arrive' decode_payload encode_response fuel c w.
Proof.
  revert c w. induction fuel as [|fuel IH]; intros c w; [done|].
  simpl. unfold iteration.
  rewrite (serve_request_determined invoke arrive arrive').
  destruct (serve_request invoke arrive' decode_payload encode_response c w)
    as [[[[|]|e|] c1] w1]; simpl; try done.
  by destruct (is_Exception e).
Qed.

